(** * Wall Street Beater price fetcher: a shallow embedding of [app/server.js]

    The Express application has four routes of interest: [/groups],
    [/price/:symbol], [/prices] and the two quote sources behind them
    ([fetchYahooPrice], [fetchMockPrice]).  This file embeds them as Rocq
    functions and proves the properties the specification states.

    Conventions.
    - A JavaScript string is its sequence of UTF-16 code units ([jsstring]).
    - A JavaScript number that the server computes with is an exact rational
      ([Q]); the rounding of IEEE doubles is not modelled.
    - [async] functions are functions into a state monad over the [World]
      (how many random numbers, clock readings and outbound HTTP calls have
      been consumed, and which quote fetches were dispatched); a rejected
      promise is the [Throw] case of [Result].
    - Query parameters are strings (or absent); the arrays and objects that
      Express builds from repeated or bracketed parameters are not modelled.
    - [console.log] and friends are dropped. *)

From Stdlib Require Import ZArith QArith Qround Qabs Lqa Lia String Ascii DecimalString.
From stdpp Require Import base option list gmap.

Set Warnings "-register-all".
Local Open Scope Z_scope.

(** ** Strings *)

Definition jsstring : Type := list N.

(** String literals of the source, as code units. *)
Definition lit (s : string) : jsstring :=
  (λ a, N_of_ascii a) <$> list_ascii_of_string s.
Arguments lit s%_string : simpl never.

(** [s.length > 0], which is also the truthiness of a string. *)
Definition nonempty (s : jsstring) : bool :=
  match s with [] => false | _ :: _ => true end.

(** The code units matched by [\s] in a regular expression; [trim] strips
    the same set (WhiteSpace and LineTerminator of ECMAScript). *)
Definition isWhiteSpace (c : N) : bool :=
  ((9 <=? c) && (c <=? 13) || (c =? 32) || (c =? 160) || (c =? 5760)
   || (8192 <=? c) && (c <=? 8202) || (c =? 8232) || (c =? 8233)
   || (c =? 8239) || (c =? 8287) || (c =? 12288) || (c =? 65279))%N.

(** The character class [[,\s]] of the separator pattern. *)
Definition isSep (c : N) : bool := (c =? 44)%N || isWhiteSpace c.

(** [s.split(/[,\s]+/)]: the fragments between maximal runs of separator
    characters.  [insep] tells that the previous character was a separator,
    so that a run of separators ends one fragment only.  A separator at the
    start or the end of the string leaves an empty fragment there, and the
    empty string splits into one empty fragment. *)
Fixpoint split_from (insep : bool) (s : jsstring) : list jsstring :=
  match s with
  | [] => [[]]
  | c :: s' =>
      if isSep c then
        if insep then split_from true s' else [] :: split_from true s'
      else
        match split_from false s' with
        | f :: fs => (c :: f) :: fs
        | [] => [[c]]
        end
  end.

Definition split (s : jsstring) : list jsstring := split_from false s.

Fixpoint dropWhile {A} (p : A → bool) (l : list A) : list A :=
  match l with
  | [] => []
  | x :: l' => if p x then dropWhile p l' else l
  end.

(** [s.trim()] *)
Definition trim (s : jsstring) : jsstring :=
  rev (dropWhile isWhiteSpace (rev (dropWhile isWhiteSpace s))).

(** Case mapping restricted to ASCII, where it is a map over code units. *)
Definition asciiUpper (c : N) : N :=
  if ((97 <=? c) && (c <=? 122))%N then (c - 32)%N else c.
Definition asciiLower (c : N) : N :=
  if ((65 <=? c) && (c <=? 90))%N then (c + 32)%N else c.
Definition isAscii (c : N) : bool := (c <? 128)%N.

(** Decimal notation of an integer, for template strings. *)
Definition string_of_Z (z : Z) : jsstring :=
  lit (NilZero.string_of_int (Z.to_int z)).

(** ** Values, numbers and exceptions *)

(** A JavaScript value as [JSON.parse] and the server build them. *)
Inductive value : Type :=
| VUndefined
| VNull
| VBool (b : bool)
| VNum (q : Q)
| VStr (s : jsstring)
| VArr (items : list value)
| VObj (fields : list (jsstring * value)).

(** The outcome of a computation that may throw; [Throw] carries
    [error.message]. *)
Inductive Result (A : Type) : Type :=
| Ok (a : A)
| Throw (message : jsstring).
Arguments Ok {A} a.
Arguments Throw {A} message.

(** ToBoolean *)
Definition truthy (v : value) : bool :=
  match v with
  | VUndefined | VNull => false
  | VBool b => b
  | VNum q => negb (Qeq_bool q 0)
  | VStr s => nonempty s
  | VArr _ | VObj _ => true
  end.

Definition nullish (v : value) : bool :=
  match v with VUndefined | VNull => true | _ => false end.

Fixpoint assoc (k : jsstring) (fields : list (jsstring * value)) : value :=
  match fields with
  | [] => VUndefined
  | (k', v) :: rest => if bool_decide (k' = k) then v else assoc k rest
  end.

Definition typeName (v : value) : jsstring :=
  match v with VNull => lit "null" | _ => lit "undefined" end.

(** [v.k] for a property name [k] that no prototype provides (the names
    the server reads are [chart], [result], [meta] and the [regularMarket*]
    fields): only an object can have it, and reading it from [null] or
    [undefined] throws a TypeError. *)
Definition getProp (v : value) (k : jsstring) : Result value :=
  match v with
  | VUndefined | VNull =>
      Throw (lit "Cannot read properties of " ++ typeName v
             ++ lit " (reading '" ++ k ++ lit "')")
  | VObj fields => Ok (assoc k fields)
  | _ => Ok VUndefined
  end.

(** [v[0]] on a value that is neither [null] nor [undefined]. *)
Definition getIndex0 (v : value) : value :=
  match v with
  | VArr (x :: _) => x
  | VStr (c :: _) => VStr [c]
  | VObj fields => assoc (lit "0") fields
  | _ => VUndefined
  end.

(** [parseFloat(x.toFixed(2))]: [x] rounded to two decimals, halves away
    from zero; from 1e21 on [toFixed] prints the number itself. *)
Definition toFixed2 (x : Q) : Q :=
  if Qle_bool (inject_Z (10 ^ 21)) (Qabs x) then x
  else
    let n := Qfloor (Qabs x * 100 + (1 # 2))%Q in
    if Qle_bool 0 x then Qmake n 100 else Qmake (- n) 100.

(** [v.toFixed(2)] parsed back, for [v] neither [null] nor [undefined];
    [what] is the text of the callee in the source. *)
Definition callToFixed2 (what : string) (v : value) : Result Q :=
  match v with
  | VNum q => Ok (toFixed2 q)
  | _ => Throw (lit what ++ lit ".toFixed is not a function")
  end.
Arguments callToFixed2 what%_string v.

(** ** Data model *)

Module Quote.
Record t : Type := {
  symbol : jsstring;
  price : Q;
  currency : value;
  timestamp : Z;
  source : jsstring;
  change_24h : option Q;
  change_percent_24h : option Q
}.
End Quote.

Module StockGroup.
Record t : Type := {
  name : jsstring;
  symbols : list jsstring;
  description : jsstring
}.
End StockGroup.

(** What a promise of the batch is fulfilled with: the quote, or the object
    [{symbol, error}] that the [.catch] handler builds. *)
Inductive fetched : Type :=
| FQuote (q : Quote.t)
| FError (symbol error : jsstring).

(** An element of the array that [Promise.allSettled] resolves to. *)
Inductive settled : Type :=
| Fulfilled (v : fetched)
| Rejected (reason : jsstring).

Module Aggregate.
(** [errors] is [None] where the source sends [undefined], a property
    that [JSON.stringify] leaves out of the body. *)
Record t : Type := {
  success : bool;
  prices : list fetched;
  errors : option (list jsstring);
  total_requested : nat;
  total_successful : nat;
  total_failed : nat
}.
End Aggregate.

Inductive Body : Type :=
| BQuote (q : Quote.t)
| BError (error message : jsstring)
| BGroups (groups : list (jsstring * StockGroup.t))
| BAggregate (a : Aggregate.t).

Record Response : Type := { status : Z; body : Body }.

(** [res.json(b)] and [res.status(c).json(b)] *)
Definition json (b : Body) : Response := {| status := 200; body := b |}.
Definition status_json (c : Z) (b : Body) : Response :=
  {| status := c; body := b |}.

(** The parts of [req] that the handlers read: [req.params.symbol] (bound by
    the route [/price/:symbol] only), [req.query.symbols] and
    [req.query.source]; [None] is an absent parameter ([undefined]). *)
Record Request : Type := {
  params_symbol : jsstring;
  query_symbols : option jsstring;
  query_source : option jsstring
}.

(** ** The world outside the process *)

(** What [axios.get] settles to: a rejection (network error, timeout, or a
    status outside 2xx) with its message, or a response. *)
Inductive AxiosOutcome : Type :=
| AxiosRejected (message : jsstring)
| AxiosResponse (status : Z) (data : value).

(** The answers of the environment: the [n]-th [Math.random()], the [n]-th
    [Date.now()] and the [n]-th outbound request. *)
Record Env : Type := {
  random : nat → Q;
  now : nat → Z;
  axios_get : nat → jsstring → AxiosOutcome
}.

(** How much of the environment has been consumed, and the calls of
    [fetchPrice] made so far, oldest first. *)
Record World : Type := {
  rand_ix : nat;
  clock_ix : nat;
  http_ix : nat;
  dispatched : list (jsstring * jsstring)
}.

Definition world0 : World :=
  {| rand_ix := 0; clock_ix := 0; http_ix := 0; dispatched := [] |}.

(** State and exceptions. *)
Definition M (A : Type) : Type := World → Result A * World.

Definition ret {A} (a : A) : M A := λ w, (Ok a, w).
Definition throw {A} (message : jsstring) : M A := λ w, (Throw message, w).
Definition bind {A B} (k : A → M B) (c : M A) : M B :=
  λ w, match c w with
       | (Ok a, w') => k a w'
       | (Throw m, w') => (Throw m, w')
       end.
(** [try { c } catch (error) { h error.message }] *)
Definition try_catch {A} (c : M A) (h : jsstring → M A) : M A :=
  λ w, match c w with
       | (Ok a, w') => (Ok a, w')
       | (Throw m, w') => h m w'
       end.
Definition lift {A} (r : Result A) : M A := λ w, (r, w).

#[export] Instance M_ret : MRet M := @ret.
#[export] Instance M_bind : MBind M := @bind.

Fixpoint mapM {A B} (f : A → M B) (l : list A) : M (list B) :=
  match l with
  | [] => mret []
  | x :: l' => y ← f x; ys ← mapM f l'; mret (y :: ys)
  end.

(** Fixtures: a runtime whose case mapping is the ASCII one, used to run the
    model on concrete requests. *)
Definition asciiToUpperCase (s : jsstring) : jsstring := asciiUpper <$> s.
Definition asciiToLowerCase (s : jsstring) : jsstring := asciiLower <$> s.

(** A response body of the upstream API in the expected shape. *)
Definition chart_data (price change percent : Q) : value :=
  VObj [(lit "chart",
    VObj [(lit "result",
      VArr [VObj [(lit "meta",
        VObj [(lit "regularMarketPrice", VNum price);
              (lit "currency", VStr (lit "USD"));
              (lit "regularMarketChange", VNum change);
              (lit "regularMarketChangePercent", VNum percent)])]])])].

(** An environment in which the upstream API knows [AAPL] and every other
    request times out. *)
Definition sample_env : Env :=
  {| random := λ n, (Z.of_nat (n mod 4) # 4)%Q;
     now := λ n, 1703123456789 + Z.of_nat n;
     axios_get := λ n url,
       if bool_decide
            (url = lit "https://query1.finance.yahoo.com/v8/finance/chart/AAPL")
       then AxiosResponse 200
              (chart_data (15025 # 100) (215 # 100) (145 # 100))
       else AxiosRejected (lit "timeout of 5000ms exceeded") |}.

(** [GET /prices?symbols=...] with or without [&source=...], and
    [GET /price/:symbol]. *)
Definition prices_request (symbols : string) (source : option jsstring)
    : Request :=
  {| params_symbol := [];
     query_symbols := Some (lit symbols);
     query_source := source |}.

Definition price_request (symbol : string) (source : option jsstring)
    : Request :=
  {| params_symbol := lit symbol;
     query_symbols := None;
     query_source := source |}.

(** ** The server *)

(** [const basePrices = {...}] of [fetchMockPrice]. *)
Definition basePrices : gmap jsstring Q :=
  list_to_map
    [ (lit "AAPL", 150%Q); (lit "TSLA", 200%Q); (lit "MSFT", 300%Q);
      (lit "GOOGL", 2500%Q); (lit "AMZN", 3000%Q); (lit "NVDA", 400%Q);
      (lit "META", 250%Q); (lit "NFLX", 400%Q); (lit "JPM", 150%Q);
      (lit "BAC", 30%Q); (lit "WFC", 40%Q); (lit "GS", 350%Q) ].

(** [const groups = {...}] of the [/groups] route, in source order. *)
Definition group (key name : string) (symbols : list string)
    (description : string) : jsstring * StockGroup.t :=
  (lit key,
   {| StockGroup.name := lit name;
      StockGroup.symbols := lit <$> symbols;
      StockGroup.description := lit description |}).

Definition groups : list (jsstring * StockGroup.t) :=
  [ group "tech" "Tech Giants"
      ["AAPL"; "MSFT"; "GOOGL"; "META"; "NVDA"; "NFLX"; "AMZN"; "TSLA"]%string
      "Major technology companies";
    group "finance" "Financial Sector"
      ["JPM"; "BAC"; "WFC"; "GS"; "MS"; "C"; "AXP"; "V"]%string
      "Banking and financial services";
    group "healthcare" "Healthcare"
      ["JNJ"; "PFE"; "UNH"; "ABBV"; "MRK"; "TMO"; "ABT"; "LLY"]%string
      "Pharmaceutical and healthcare companies";
    group "energy" "Energy Sector"
      ["XOM"; "CVX"; "COP"; "EOG"; "SLB"; "KMI"; "PSX"; "VLO"]%string
      "Oil, gas, and energy companies";
    group "retail" "Retail & Consumer"
      ["WMT"; "TGT"; "COST"; "HD"; "LOW"; "NKE"; "SBUX"; "MCD"]%string
      "Retail and consumer goods";
    group "crypto" "Crypto-Related"
      ["COIN"; "MSTR"; "RIOT"; "MARA"; "HUT"; "BITF"; "CAN"; "HIVE"]%string
      "Cryptocurrency and blockchain companies" ].

(** [p || d] for a query parameter: absent and empty are both falsy. *)
Definition or_default (p : option jsstring) (d : jsstring) : jsstring :=
  match p with
  | Some s => if nonempty s then s else d
  | None => d
  end.

(** [!p] for a query parameter. *)
Definition missing (p : option jsstring) : bool :=
  match p with
  | Some s => negb (nonempty s)
  | None => true
  end.

(** The base price of the mock generator:
    [basePrices[symbol] || (100.0 + (symbol.length * 10))].  The symbol is
    an uppercased ticker, so that only the table's own keys are found (the
    names an object inherits all contain lowercase letters). *)
Definition basePrice (symbol : jsstring) : Q :=
  let fallback := (100 + inject_Z (Z.of_nat (length symbol)) * 10)%Q in
  match basePrices !! symbol with
  | Some b => if negb (Qeq_bool b 0) then b else fallback
  | None => fallback
  end.

(** One step of [results.forEach((result, index) => ...)] on the two
    arrays [prices] and [errors]; [push] appends.  A template string prints
    a missing array element as [undefined]. *)
Definition classify (symbolList : list jsstring)
    (acc : list fetched * list jsstring) (ir : nat * settled)
    : list fetched * list jsstring :=
  let '(prices, errors) := acc in
  let '(index, result) := ir in
  let sym := default (lit "undefined") (symbolList !! index) in
  match result with
  | Fulfilled (FError _ e as v) =>
      if nonempty e then (prices, errors ++ [sym ++ lit ": " ++ e])
      else (prices ++ [v], errors)
  | Fulfilled (FQuote _ as v) => (prices ++ [v], errors)
  | Rejected reason => (prices, errors ++ [sym ++ lit ": " ++ reason])
  end.

Definition forEach_classify (symbolList : list jsstring)
    (results : list settled) : list fetched * list jsstring :=
  fold_left (classify symbolList)
    (zip (seq 0 (length results)) results) ([], []).

(** The quotes among the outcomes of a batch, in order. *)
Definition successes (outs : list (Result Quote.t)) : list fetched :=
  omap (λ r, match r with Ok q => Some (FQuote q) | Throw _ => None end) outs.

(** The failures among the outcomes of a batch, each printed as
    [symbol: message], in order. *)
Definition failures (symbols : list jsstring)
    (outs : list (Result Quote.t)) : list jsstring :=
  omap (λ sr : jsstring * Result Quote.t,
          match sr.2 with
          | Throw m => Some (sr.1 ++ lit ": " ++ m)
          | Ok _ => None
          end) (zip symbols outs).

Definition sepFree (t : jsstring) : Prop := Forall (λ c, isSep c = false) t.

(** A string either ends or goes on with a separator. *)
Definition atBoundary (s : jsstring) : Prop :=
  match s with [] => True | c :: _ => isSep c = true end.

(** [Tokens s ts]: [ts] are the maximal separator-free runs of [s], from
    left to right. *)
Inductive Tokens : jsstring → list jsstring → Prop :=
| Tokens_end : Tokens [] []
| Tokens_skip c s ts :
    isSep c = true → Tokens s ts → Tokens (c :: s) ts
| Tokens_word t s ts :
    t ≠ [] → sepFree t → atBoundary s → Tokens s ts →
    Tokens (t ++ s) (t :: ts).

(** What the promise of one symbol of the batch settles to, given the
    outcome of its fetch. *)
Definition settle_of (sr : jsstring * Result Quote.t) : settled :=
  match sr.2 with
  | Ok q => Fulfilled (FQuote q)
  | Throw m => Fulfilled (FError sr.1 m)
  end.

(** An error message that is a truthy string. *)
Definition loud (r : Result Quote.t) : Prop :=
  match r with Ok _ => True | Throw m => nonempty m = true end.

(** [c] leaves the log of dispatched fetches as it found it. *)
Definition keeps_log {A} (c : M A) : Prop :=
  ∀ w, dispatched (c w).2 = dispatched w.

(** Whatever [c] returns satisfies [P]. *)
Definition returns {A} (c : M A) (P : A → Prop) : Prop :=
  ∀ w a w', c w = (Ok a, w') → P a.

(** Whatever [c] throws satisfies [P]. *)
Definition throws {A} (c : M A) (P : jsstring → Prop) : Prop :=
  ∀ w m w', c w = (Throw m, w') → P m.

(** *** Notions for the statements about the two quote sources *)

(** The address that [fetchYahooPrice] requests for a symbol. *)
Definition yahoo_url (symbol : jsstring) : jsstring :=
  lit "https://query1.finance.yahoo.com/v8/finance/chart/" ++ symbol.

(** A field that is a number, or else falsy (absent, [null], [0], ...). *)
Definition optionalNumber (v : value) : Prop :=
  truthy v = false ∨ ∃ c, v = VNum c.

(** What [v ? parseFloat(v.toFixed(2)) : null] gives for such a field: a
    zero is falsy, and so reported as [null]. *)
Definition roundedOrNull (v : value) : option Q :=
  match v with
  | VNum c => if Qeq_bool c 0 then None else Some (toFixed2 c)
  | _ => None
  end.

(** An outcome with the clock reading of its quote blanked, to compare
    fetches that completed at different times. *)
Definition untimed (r : Result Quote.t) : Result Quote.t :=
  match r with
  | Ok q =>
      Ok {| Quote.symbol := Quote.symbol q;
            Quote.price := Quote.price q;
            Quote.currency := Quote.currency q;
            Quote.timestamp := 0;
            Quote.source := Quote.source q;
            Quote.change_24h := Quote.change_24h q;
            Quote.change_percent_24h := Quote.change_percent_24h q |}
  | Throw m => Throw m
  end.

(** The symbol an element of [prices] is about. *)
Definition fetched_symbol (v : fetched) : jsstring :=
  match v with
  | FQuote q => Quote.symbol q
  | FError symbol _ => symbol
  end.

(** [ts.join(',')], the way a client writes a list of symbols into the
    [symbols] parameter. *)
Fixpoint join_comma (ts : list jsstring) : jsstring :=
  match ts with
  | [] => []
  | t :: ts' =>
      match ts' with
      | [] => t
      | _ :: _ => t ++ lit "," ++ join_comma ts'
      end
  end.

(** The messages with which the part of [fetchYahooPrice] that reads the
    body can fail. *)
Definition shape_complaints : list jsstring :=
  [ lit "Invalid response format"; lit "Missing meta data";
    lit "Missing price data"; lit "price.toFixed is not a function";
    lit "meta.regularMarketChange.toFixed is not a function";
    lit "meta.regularMarketChangePercent.toFixed is not a function" ].

(** [c] leaves the component [f] of the world as it found it. *)
Definition keeps {A B} (f : World → B) (c : M A) : Prop :=
  ∀ w, f (c w).2 = f w.

(** [c] reads the clock [n] times at most. *)
Definition ticks_le (n : nat) {A} (c : M A) : Prop :=
  ∀ w, (clock_ix w ≤ clock_ix (c w).2 ≤ clock_ix w + n)%nat.

(** Two computations end alike from any two worlds related by [W]: both
    throw the same message, or both return, with values related by [R]. *)
Definition sim {A} (W : World → World → Prop) (R : A → A → Prop)
    (c1 c2 : M A) : Prop :=
  ∀ w1 w2, W w1 w2 →
    match (c1 w1).1, (c2 w2).1 with
    | Ok a, Ok b => R a b
    | Throw m1, Throw m2 => m1 = m2
    | _, _ => False
    end.

(** Any two worlds. *)
Definition anyW : World → World → Prop := λ _ _, True.

(** Two quotes that differ in their timestamp at most. *)
Definition sameButTime (q1 q2 : Quote.t) : Prop :=
  untimed (Ok q1) = untimed (Ok q2).

(** An environment that answers the requests for [MSFT] too, and [AAPL]
    as [sample_env] does. *)
Definition other_env : Env :=
  {| random := random sample_env;
     now := λ n, 1800000000000;
     axios_get := λ n url,
       if bool_decide (url = yahoo_url (lit "MSFT"))
       then AxiosResponse 200 (chart_data 300 0 0)
       else axios_get sample_env n url |}.

(** An environment whose upstream API gives every request the same
    answer. *)
Definition const_env (answer : AxiosOutcome) : Env :=
  {| random := random sample_env;
     now := now sample_env;
     axios_get := λ _ _, answer |}.

(** The body with which the upstream API reports a symbol it does not
    know. *)
Definition no_result : list (jsstring * value) :=
  [(lit "chart", VObj [(lit "result", VNull)])].

Section Server.
(** [String.prototype.toUpperCase] and [toLowerCase] follow the Unicode
    tables of the runtime; they are parameters of the server. *)
Context (toUpperCase toLowerCase : jsstring → jsstring).
Context (env : Env).

Definition Math_random : M Q := λ w,
  (Ok (random env (rand_ix w)),
   {| rand_ix := S (rand_ix w); clock_ix := clock_ix w;
      http_ix := http_ix w; dispatched := dispatched w |}).

Definition Date_now : M Z := λ w,
  (Ok (now env (clock_ix w)),
   {| rand_ix := rand_ix w; clock_ix := S (clock_ix w);
      http_ix := http_ix w; dispatched := dispatched w |}).

(** [await axios.get(url, {headers, timeout: 5000})]: the response, or
    the rejection thrown. *)
Definition axios_get_await (url : jsstring) : M (Z * value) := λ w,
  let w' := {| rand_ix := rand_ix w; clock_ix := clock_ix w;
               http_ix := S (http_ix w); dispatched := dispatched w |} in
  match axios_get env (http_ix w) url with
  | AxiosRejected m => (Throw m, w')
  | AxiosResponse st data => (Ok (st, data), w')
  end.

(** Entering [fetchPrice(symbol, source)]. *)
Definition note_dispatch (symbol source : jsstring) : M unit := λ w,
  (Ok (),
   {| rand_ix := rand_ix w; clock_ix := clock_ix w; http_ix := http_ix w;
      dispatched := dispatched w ++ [(symbol, source)] |}).

Definition fetchYahooPrice (symbol : jsstring) : M Quote.t :=
  try_catch
    (let url := lit "https://query1.finance.yahoo.com/v8/finance/chart/"
                ++ symbol in
     response ← axios_get_await url;
     let '(response_status, data) := response in
     if negb (response_status =? 200) then
       throw (lit "HTTP error: " ++ string_of_Z response_status)
     else
     (* data.chart?.result?.[0] *)
     chart ← lift (getProp data (lit "chart"));
     result ← (if nullish chart then mret VUndefined
               else r ← lift (getProp chart (lit "result"));
                    if nullish r then mret VUndefined
                    else mret (getIndex0 r));
     if negb (truthy result) then throw (lit "Invalid response format")
     else
     meta ← lift (getProp result (lit "meta"));
     if negb (truthy meta) then throw (lit "Missing meta data")
     else
     price ← lift (getProp meta (lit "regularMarketPrice"));
     if nullish price then throw (lit "Missing price data")
     else
     price2 ← lift (callToFixed2 "price" price);
     currency ← lift (getProp meta (lit "currency"));
     t ← Date_now;
     change ← lift (getProp meta (lit "regularMarketChange"));
     change2 ← (if truthy change
                then c ← lift (callToFixed2 "meta.regularMarketChange" change);
                     mret (Some c)
                else mret None);
     percent ← lift (getProp meta (lit "regularMarketChangePercent"));
     percent2 ← (if truthy percent
                 then c ← lift (callToFixed2
                                  "meta.regularMarketChangePercent" percent);
                      mret (Some c)
                 else mret None);
     mret {| Quote.symbol := symbol;
             Quote.price := price2;
             Quote.currency :=
               if truthy currency then currency else VStr (lit "USD");
             Quote.timestamp := t / 1000;
             Quote.source := lit "yahoo";
             Quote.change_24h := change2;
             Quote.change_percent_24h := percent2 |})
    (λ m, throw (lit "Yahoo API error: " ++ m)).

Definition fetchMockPrice (symbol : jsstring) : M Quote.t :=
  r1 ← Math_random;
  let variation := ((r1 - (1 # 2)) * (1 # 10))%Q in
  let price := (basePrice symbol * (1 + variation))%Q in
  r2 ← Math_random;
  let change24h := ((r2 - (1 # 2)) * 10)%Q in
  let changePercent24h := ((change24h / price) * 100)%Q in
  t ← Date_now;
  mret {| Quote.symbol := symbol;
          Quote.price := toFixed2 price;
          Quote.currency := VStr (lit "USD");
          Quote.timestamp := t / 1000;
          Quote.source := lit "mock";
          Quote.change_24h := Some (toFixed2 change24h);
          Quote.change_percent_24h := Some (toFixed2 changePercent24h) |}.

Definition fetchPrice (symbol source : jsstring) : M Quote.t :=
  note_dispatch symbol source;;
  let selector := toLowerCase source in
  if bool_decide (selector = lit "yahoo") then fetchYahooPrice symbol
  else if bool_decide (selector = lit "mock") then fetchMockPrice symbol
  else fetchMockPrice symbol.

(** [app.get('/groups', ...)] *)
Definition groups_handler (req : Request) : M Response :=
  mret (json (BGroups groups)).

(** [app.get('/price/:symbol', ...)] *)
Definition price_handler (req : Request) : M Response :=
  let symbol := toUpperCase (params_symbol req) in
  let source := or_default (query_source req) (lit "yahoo") in
  try_catch
    (priceData ← fetchPrice symbol source;
     mret (json (BQuote priceData)))
    (λ m, mret (status_json 400
                  (BError (lit "PRICE_FETCH_FAILED")
                     (lit "Failed to fetch price for " ++ symbol
                      ++ lit ": " ++ m)))).

(** [symbols.split(/[,\s]+/).map(s => s.trim().toUpperCase())
    .filter(s => s.length > 0)] *)
Definition symbolList (symbols : jsstring) : list jsstring :=
  List.filter nonempty ((λ s, toUpperCase (trim s)) <$> split symbols).

(** [symbolList.map(symbol => fetchPrice(symbol, source).catch(...))] *)
Definition promises (symbols : list jsstring) (source : jsstring)
    : list (M fetched) :=
  (λ symbol,
     try_catch (q ← fetchPrice symbol source; mret (FQuote q))
               (λ m, mret (FError symbol m))) <$> symbols.

(** [await Promise.allSettled(promises)].  The fetches of a batch are
    outstanding together and may complete in any order; none reads what
    another wrote, so they are run here one after the other, in the order
    in which [map] started them.  Only which clock reading a quote gets
    depends on the order of completion. *)
Definition allSettled (ps : list (M fetched)) : M (list settled) :=
  mapM (λ p, try_catch (v ← p; mret (Fulfilled v))
                       (λ m, mret (Rejected m))) ps.

(** [app.get('/prices', ...)] *)
Definition prices_handler (req : Request) : M Response :=
  let source := or_default (query_source req) (lit "yahoo") in
  if missing (query_symbols req) then
    mret (status_json 400
            (BError (lit "MISSING_SYMBOLS")
               (lit "Missing 'symbols' parameter. Use comma or space-separated values like: ?symbols=AAPL,TSLA,MSFT or ?symbols=AAPL TSLA MSFT")))
  else
    let symbolList := symbolList (default [] (query_symbols req)) in
    results ← allSettled (promises symbolList source);
    let '(prices, errors) := forEach_classify symbolList results in
    mret (json (BAggregate
      {| Aggregate.success := bool_decide (0 < length prices)%nat;
         Aggregate.prices := prices;
         Aggregate.errors :=
           if bool_decide (0 < length errors)%nat then Some errors else None;
         Aggregate.total_requested := length symbolList;
         Aggregate.total_successful := length prices;
         Aggregate.total_failed := length errors |})).

(** *** Reference notions for the statements *)

(** The fetches of a batch, one after the other: the outcome of
    [fetchPrice] for each symbol, and the world after the last one. *)
Fixpoint run_batch (symbols : list jsstring) (source : jsstring)
    (w : World) : list (Result Quote.t) * World :=
  match symbols with
  | [] => ([], w)
  | symbol :: rest =>
      let '(r, w1) := fetchPrice symbol source w in
      let '(rs, w2) := run_batch rest source w1 in
      (r :: rs, w2)
  end.

(** ** Facts about strings *)

Lemma isWhiteSpace_isSep c : isWhiteSpace c = true → isSep c = true.
Proof. unfold isSep. intros ->. apply orb_true_r. Qed.

Lemma dropWhile_id {A} (p : A → bool) (l : list A) :
  match l with [] => True | x :: _ => p x = false end → dropWhile p l = l.
Proof. destruct l as [|x l]; simpl; [done|]. by intros ->. Qed.

Lemma sepFree_no_space_head (t : jsstring) :
  sepFree t → match t with [] => True | c :: _ => isWhiteSpace c = false end.
Proof.
  destruct 1 as [|c t Hc _]; [done|].
  destruct (isWhiteSpace c) eqn:E; [|done].
  apply isWhiteSpace_isSep in E. congruence.
Qed.

(** A fragment without separators is not changed by [trim]. *)
Lemma trim_sepFree (t : jsstring) : sepFree t → trim t = t.
Proof.
  intros Ht. unfold trim.
  rewrite (dropWhile_id _ t) by by apply sepFree_no_space_head.
  rewrite dropWhile_id; [apply rev_involutive|].
  apply sepFree_no_space_head. by apply Forall_rev.
Qed.

Lemma split_from_skip (s : jsstring) :
  split_from true s = split_from false (dropWhile isSep s).
Proof.
  induction s as [|c s IH]; simpl; [done|].
  destruct (isSep c) eqn:E; [done|]. simpl. by rewrite E.
Qed.

(** The first fragment is the longest separator-free prefix. *)
Lemma split_from_first (s : jsstring) :
  ∃ f fs rest,
    split_from false s = f :: fs ∧ s = f ++ rest ∧ sepFree f ∧
    ((rest = [] ∧ fs = []) ∨
     (∃ c r, rest = c :: r ∧ isSep c = true ∧ fs = split_from true r)).
Proof.
  induction s as [|c s (f & fs & rest & Hs & Hcat & Hf & Hrest)]; simpl.
  - exists [], [], []. repeat split; [constructor | by left].
  - destruct (isSep c) eqn:E.
    + exists [], (split_from true s), (c :: s).
      repeat split; [constructor|]. right. by exists c, s.
    + rewrite Hs. exists (c :: f), fs, rest.
      repeat split; [by rewrite Hcat | by constructor | done].
Qed.

Lemma dropWhile_length {A} (p : A → bool) (l : list A) :
  (length (dropWhile p l) ≤ length l)%nat.
Proof.
  induction l as [|x l IH]; simpl; [lia|]. destruct (p x); simpl; lia.
Qed.

Lemma split_sepFree (s : jsstring) : Forall sepFree (split s).
Proof.
  unfold split.
  induction s as [s IH] using (induction_ltof1 _ (@length N)).
  unfold ltof in IH.
  destruct (split_from_first s) as (f & fs & rest & -> & Hcat & Hf & Hrest).
  constructor; [done|].
  destruct Hrest as [[_ ->] | (c & r & -> & Hc & ->)]; [constructor|].
  rewrite split_from_skip. apply IH. subst s.
  rewrite length_app. simpl.
  pose proof (dropWhile_length isSep r). lia.
Qed.

Lemma Tokens_dropWhile (s : jsstring) ts :
  Tokens (dropWhile isSep s) ts → Tokens s ts.
Proof.
  induction s as [|c s IH]; simpl; [done|].
  destruct (isSep c) eqn:E; [|done].
  intros H. apply Tokens_skip; auto.
Qed.

(** The non-empty fragments of [split] are the tokens of the string. *)
Lemma split_Tokens (s : jsstring) : Tokens s (List.filter nonempty (split s)).
Proof.
  unfold split.
  induction s as [s IH] using (induction_ltof1 _ (@length N)).
  unfold ltof in IH.
  destruct (split_from_first s) as (f & fs & rest & -> & Hcat & Hf & Hrest).
  assert (Tokens rest (List.filter nonempty fs) ∧ atBoundary rest) as [Hr Hb].
  { destruct Hrest as [[-> ->] | (c & r & -> & Hc & ->)].
    - split; [constructor | done].
    - split; [|done]. apply Tokens_skip; [done|].
      apply Tokens_dropWhile. rewrite split_from_skip. apply IH.
      subst s. rewrite length_app. simpl.
      pose proof (dropWhile_length isSep r). lia. }
  subst s. simpl. destruct f as [|c f]; simpl; [done|].
  by apply (Tokens_word (c :: f)).
Qed.


Lemma boundary_unique (t t' s s' : jsstring) :
  sepFree t → sepFree t' → atBoundary s → atBoundary s' →
  t ++ s = t' ++ s' → t = t' ∧ s = s'.
Proof.
  intros Ht. revert t'.
  induction Ht as [|c t Hc Ht IH]; intros t' Ht' Hs Hs' E.
  - destruct Ht' as [|c' t' Hc' _]; [done|].
    simpl in E. subst s. simpl in Hs. congruence.
  - destruct Ht' as [|c' t' Hc' Ht'].
    + simpl in E. subst s'. simpl in Hs'. congruence.
    + simpl in E. injection E as -> E.
      destruct (IH t' Ht' Hs Hs' E) as [-> ->]. done.
Qed.

(** A string has one list of tokens. *)
Lemma Tokens_functional (s : jsstring) ts1 ts2 :
  Tokens s ts1 → Tokens s ts2 → ts1 = ts2.
Proof.
  intros H1. revert ts2.
  induction H1 as [|c s ts Hc H1 IH|t s ts Hne Ht Hb H1 IH]; intros ts2 H2.
  - remember [] as u eqn:Eu. destruct H2 as [| |t' s' ts' Hne' _ _ _];
      [done|done|].
    destruct t'; [done|discriminate].
  - remember (c :: s) as u eqn:Eu.
    destruct H2 as [|c' s' ts' Hc' H2|t' s' ts' Hne' Ht' _ _]; [done| |].
    + injection Eu as -> ->. by apply IH.
    + destruct Ht' as [|x t' Hx _]; [done|].
      simpl in Eu. injection Eu as -> _. congruence.
  - remember (t ++ s) as u eqn:Eu.
    destruct H2 as [|c' s' ts' Hc' H2|t' s' ts' Hne' Ht' Hb' H2].
    + destruct t; [done|discriminate].
    + destruct Ht as [|x t Hx _]; [done|].
      simpl in Eu. injection Eu as -> _. congruence.
    + destruct (boundary_unique t' t s' s Ht' Ht Hb' Hb Eu) as [-> ->].
      f_equal. by apply IH.
Qed.

(** ** Facts about the server *)

Hypothesis toUpperCase_ascii :
  ∀ s, forallb isAscii s = true → toUpperCase s = asciiUpper <$> s.
Hypothesis toUpperCase_nonempty :
  ∀ s, s ≠ [] → toUpperCase s ≠ [].

Lemma nonempty_toUpperCase (s : jsstring) :
  nonempty (toUpperCase s) = nonempty s.
Proof.
  destruct s as [|c s].
  - by rewrite toUpperCase_ascii.
  - simpl. specialize (toUpperCase_nonempty (c :: s)).
    destruct (toUpperCase (c :: s)); [|done].
    by destruct toUpperCase_nonempty.
Qed.

Lemma filter_nonempty_upper (fs : list jsstring) :
  List.filter nonempty (toUpperCase <$> fs)
  = toUpperCase <$> List.filter nonempty fs.
Proof.
  induction fs as [|f fs IH]; csimpl; [done|].
  rewrite nonempty_toUpperCase.
  destruct (nonempty f); csimpl; by rewrite IH.
Qed.

Lemma symbolList_eq (symbols : jsstring) :
  symbolList symbols = toUpperCase <$> List.filter nonempty (split symbols).
Proof.
  unfold symbolList.
  transitivity (List.filter nonempty (toUpperCase <$> split symbols));
    [|apply filter_nonempty_upper].
  f_equal.
  apply Forall_fmap_ext_1. eapply Forall_impl; [apply split_sepFree|].
  intros f Hf. by rewrite trim_sepFree.
Qed.

(** C4. For every [symbols] query string, the list that [GET /prices]
    parses out of it is made of the maximal runs of characters that are
    neither commas nor whitespace, each uppercased, in order; trimming
    changes no fragment and the empty fragments are dropped.  The input
    [AAPL, , TSLA] yields exactly [AAPL] and [TSLA]. *)
Theorem symbolList_tokens :
  (∀ symbols : jsstring,
     ∃ ts, Tokens symbols ts ∧ symbolList symbols = toUpperCase <$> ts
           ∧ Forall (λ f, trim f = f) (split symbols)
           ∧ Forall (λ sym, sym ≠ []) (symbolList symbols))
  ∧ symbolList (lit "AAPL, , TSLA") = [lit "AAPL"; lit "TSLA"].
Proof.
  split.
  - intros symbols. exists (List.filter nonempty (split symbols)).
    split; [apply split_Tokens|]. split; [apply symbolList_eq|]. split.
    + eapply Forall_impl; [apply split_sepFree|]. apply trim_sepFree.
    + unfold symbolList. apply List.Forall_forall. intros sym Hin.
      apply filter_In in Hin as [_ Hne]. by destruct sym.
  - rewrite symbolList_eq.
    change (List.filter nonempty (split (lit "AAPL, , TSLA")))
      with [lit "AAPL"; lit "TSLA"].
    simpl. by rewrite !toUpperCase_ascii.
Qed.


(** *** Effects of the fetchers *)

Create HintDb effects.

Lemma keeps_log_ret {A} (a : A) : keeps_log (mret a).
Proof. done. Qed.
Lemma keeps_log_throw {A} m : keeps_log (@throw A m).
Proof. done. Qed.
Lemma keeps_log_lift {A} (r : Result A) : keeps_log (lift r).
Proof. done. Qed.
Lemma keeps_log_bind {A B} (c : M A) (k : A → M B) :
  keeps_log c → (∀ a, keeps_log (k a)) → keeps_log (c ≫= k).
Proof.
  intros Hc Hk w. unfold mbind, M_bind, bind. specialize (Hc w).
  destruct (c w) as [[a|m] w1]; simpl in *; [|done].
  by rewrite Hk.
Qed.
Lemma keeps_log_try {A} (c : M A) (h : jsstring → M A) :
  keeps_log c → (∀ m, keeps_log (h m)) → keeps_log (try_catch c h).
Proof.
  intros Hc Hh w. unfold try_catch. specialize (Hc w).
  destruct (c w) as [[a|m] w1]; simpl in *; [done|].
  by rewrite Hh.
Qed.
Lemma keeps_log_random : keeps_log Math_random.
Proof. done. Qed.
Lemma keeps_log_now : keeps_log Date_now.
Proof. done. Qed.
Lemma keeps_log_axios url : keeps_log (axios_get_await url).
Proof. intros w. unfold axios_get_await. by case_match. Qed.

Hint Resolve keeps_log_ret keeps_log_throw keeps_log_lift keeps_log_random
  keeps_log_now keeps_log_axios : effects.

Ltac effects :=
  repeat first
    [ progress intros
    | apply keeps_log_try
    | apply keeps_log_bind
    | solve [auto with effects]
    | case_match ].

Lemma keeps_log_yahoo symbol : keeps_log (fetchYahooPrice symbol).
Proof. unfold fetchYahooPrice. effects. Qed.

Lemma keeps_log_mock symbol : keeps_log (fetchMockPrice symbol).
Proof. unfold fetchMockPrice. effects. Qed.


Lemma returns_ret {A} (a : A) (P : A → Prop) : P a → returns (mret a) P.
Proof. intros Ha w a' w' [= <- _]. done. Qed.
Lemma returns_throw {A} m (P : A → Prop) : returns (throw m) P.
Proof. intros w a w' [=]. Qed.
Lemma returns_bind {A B} (c : M A) (k : A → M B) (P : B → Prop) :
  (∀ a, returns (k a) P) → returns (c ≫= k) P.
Proof.
  intros Hk w b w'. unfold mbind, M_bind, bind.
  destruct (c w) as [[a|m] w1]; [apply Hk | done].
Qed.
Lemma returns_try {A} (c : M A) (h : jsstring → M A) (P : A → Prop) :
  returns c P → (∀ m, returns (h m) P) → returns (try_catch c h) P.
Proof.
  intros Hc Hh w a w'. unfold try_catch.
  destruct (c w) as [[a'|m] w1] eqn:E; [|apply Hh].
  intros [= <- _]. by apply (Hc _ _ _ E).
Qed.

Lemma throws_try_rethrow {A} (c : M A) (f : jsstring → jsstring)
    (P : jsstring → Prop) :
  (∀ m, P (f m)) → throws (try_catch c (λ m, throw (f m))) P.
Proof.
  intros HP w m w'. unfold try_catch, throw.
  destruct (c w) as [[a|m'] w1]; [done|]. by intros [= <- _].
Qed.

Ltac returns :=
  repeat first
    [ progress intros
    | apply returns_try
    | apply returns_bind
    | apply returns_throw
    | solve [apply returns_ret; done]
    | case_match ].

(** A quote from Yahoo carries the symbol asked for. *)
Lemma fetchYahooPrice_returns symbol :
  returns (fetchYahooPrice symbol)
    (λ q, Quote.symbol q = symbol ∧ Quote.source q = lit "yahoo").
Proof. unfold fetchYahooPrice. returns. Qed.

(** Every failure of the Yahoo client is reported under its prefix. *)
Lemma fetchYahooPrice_throws symbol :
  throws (fetchYahooPrice symbol)
    (λ m, ∃ m', m = lit "Yahoo API error: " ++ m').
Proof. unfold fetchYahooPrice. apply throws_try_rethrow. eauto. Qed.

(** The mock generator, run: it draws two random numbers, reads the clock
    once and returns. *)
Lemma fetchMockPrice_run symbol w :
  let r1 := random env (rand_ix w) in
  let r2 := random env (S (rand_ix w)) in
  let price := (basePrice symbol * (1 + (r1 - (1 # 2)) * (1 # 10)))%Q in
  let change24h := ((r2 - (1 # 2)) * 10)%Q in
  fetchMockPrice symbol w =
    (Ok {| Quote.symbol := symbol;
           Quote.price := toFixed2 price;
           Quote.currency := VStr (lit "USD");
           Quote.timestamp := now env (clock_ix w) / 1000;
           Quote.source := lit "mock";
           Quote.change_24h := Some (toFixed2 change24h);
           Quote.change_percent_24h :=
             Some (toFixed2 (change24h / price * 100)) |},
     {| rand_ix := S (S (rand_ix w)); clock_ix := S (clock_ix w);
        http_ix := http_ix w; dispatched := dispatched w |}).
Proof. reflexivity. Qed.

Lemma fetchPrice_unfold symbol source w :
  fetchPrice symbol source w =
    (if bool_decide (toLowerCase source = lit "yahoo")
     then fetchYahooPrice symbol else fetchMockPrice symbol)
      {| rand_ix := rand_ix w; clock_ix := clock_ix w;
         http_ix := http_ix w;
         dispatched := dispatched w ++ [(symbol, source)] |}.
Proof.
  unfold fetchPrice, mbind, M_bind, bind, note_dispatch.
  repeat case_bool_decide; done.
Qed.

(** One fetch: it is logged, a quote carries the symbol asked for and an
    error message is never empty. *)
Lemma fetchPrice_outcome symbol source w :
  dispatched (fetchPrice symbol source w).2
    = dispatched w ++ [(symbol, source)]
  ∧ match (fetchPrice symbol source w).1 with
    | Ok q => Quote.symbol q = symbol
    | Throw m => nonempty m = true
    end.
Proof.
  rewrite fetchPrice_unfold.
  set (w1 := {| rand_ix := _ |}).
  case_bool_decide.
  - split; [by rewrite keeps_log_yahoo|].
    destruct (fetchYahooPrice symbol w1) as [[q|m] w2] eqn:E; simpl.
    + by apply fetchYahooPrice_returns in E as [? _].
    + by apply fetchYahooPrice_throws in E as [m' ->].
  - split; [by rewrite keeps_log_mock|]. by rewrite fetchMockPrice_run.
Qed.

(** *** The batch *)

Lemma run_batch_length symbols source w :
  length (run_batch symbols source w).1 = length symbols.
Proof.
  revert w. induction symbols as [|symbol rest IH]; intros w; simpl; [done|].
  destruct (fetchPrice symbol source w) as [r w1].
  specialize (IH w1). destruct (run_batch rest source w1) as [rs w2].
  simpl in *. by rewrite IH.
Qed.

Lemma run_batch_log symbols source w :
  dispatched (run_batch symbols source w).2
    = dispatched w ++ ((λ symbol, (symbol, source)) <$> symbols).
Proof.
  revert w. induction symbols as [|symbol rest IH]; intros w; simpl.
  - by rewrite app_nil_r.
  - pose proof (fetchPrice_outcome symbol source w) as [Hlog _].
    destruct (fetchPrice symbol source w) as [r w1].
    specialize (IH w1). destruct (run_batch rest source w1) as [rs w2].
    simpl in *. rewrite IH, Hlog, <- app_assoc. done.
Qed.

Lemma run_batch_loud symbols source w :
  Forall loud (run_batch symbols source w).1.
Proof.
  revert w. induction symbols as [|symbol rest IH]; intros w; simpl.
  - constructor.
  - pose proof (fetchPrice_outcome symbol source w) as [_ Hr].
    destruct (fetchPrice symbol source w) as [r w1].
    specialize (IH w1). destruct (run_batch rest source w1) as [rs w2].
    simpl in *. constructor; [|done]. by destruct r.
Qed.

(** Every promise of the batch is fulfilled: the [.catch] handler turns a
    rejection into an object. *)
Lemma allSettled_promises symbols source w :
  allSettled (promises symbols source) w =
    (Ok (settle_of <$> zip symbols (run_batch symbols source w).1),
     (run_batch symbols source w).2).
Proof.
  revert w. induction symbols as [|symbol rest IH]; intros w; [done|].
  unfold allSettled, promises in *. simpl.
  unfold mbind, M_bind, bind, try_catch in *. simpl.
  destruct (fetchPrice symbol source w) as [[q|m] w1]; simpl;
    rewrite IH; by destruct (run_batch rest source w1).
Qed.


Lemma successes_cons r outs :
  successes (r :: outs) =
    match r with
    | Ok q => FQuote q :: successes outs
    | Throw _ => successes outs
    end.
Proof. by destruct r. Qed.

Lemma failures_cons symbol symbols r outs :
  failures (symbol :: symbols) (r :: outs) =
    match r with
    | Ok _ => failures symbols outs
    | Throw m => (symbol ++ lit ": " ++ m) :: failures symbols outs
    end.
Proof. by destruct r. Qed.

Lemma successes_failures_length symbols (outs : list (Result Quote.t)) :
  length outs = length symbols →
  (length (successes outs) + length (failures symbols outs)
   = length symbols)%nat.
Proof.
  revert outs.
  induction symbols as [|symbol rest IH]; intros [|r outs] Hlen;
    try done.
  injection Hlen as Hlen. specialize (IH outs Hlen).
  rewrite successes_cons, failures_cons. destruct r; simpl; lia.
Qed.

(** [forEach] sends the quotes to [prices] and the failures to [errors],
    in the order of the symbols. *)
Lemma classify_fold pre symbols outs P E :
  length outs = length symbols → Forall loud outs →
  let results := settle_of <$> zip symbols outs in
  fold_left (classify (pre ++ symbols))
    (zip (seq (length pre) (length results)) results) (P, E)
  = (P ++ successes outs, E ++ failures symbols outs).
Proof.
  revert pre outs P E.
  induction symbols as [|symbol rest IH]; intros pre [|r outs] P E Hlen Hloud;
    try done.
  - simpl. by rewrite !app_nil_r.
  - injection Hlen as Hlen. apply Forall_cons in Hloud as [Hr Hloud].
    specialize (IH (pre ++ [symbol]) outs).
    rewrite <- app_assoc, length_app, Nat.add_1_r in IH. simpl in IH.
    rewrite successes_cons, failures_cons.
    simpl. rewrite list_lookup_middle by done. simpl.
    destruct r as [q|m]; simpl in *.
    + rewrite IH by done. by rewrite <- app_assoc.
    + rewrite Hr, IH by done. by rewrite <- app_assoc.
Qed.

Lemma forEach_classify_batch symbols outs :
  length outs = length symbols → Forall loud outs →
  forEach_classify symbols (settle_of <$> zip symbols outs)
  = (successes outs, failures symbols outs).
Proof.
  intros Hlen Hloud. unfold forEach_classify.
  apply (classify_fold [] symbols outs [] [] Hlen Hloud).
Qed.

(** The response of [/prices] to a request that names symbols. *)
Lemma prices_handler_batch req w symbols :
  query_symbols req = Some symbols → symbols ≠ [] →
  let source := or_default (query_source req) (lit "yahoo") in
  let syms := symbolList symbols in
  let outs := (run_batch syms source w).1 in
  prices_handler req w =
    (Ok (json (BAggregate
       {| Aggregate.success := bool_decide (0 < length (successes outs))%nat;
          Aggregate.prices := successes outs;
          Aggregate.errors :=
            if bool_decide (0 < length (failures syms outs))%nat
            then Some (failures syms outs) else None;
          Aggregate.total_requested := length syms;
          Aggregate.total_successful := length (successes outs);
          Aggregate.total_failed := length (failures syms outs) |})),
     (run_batch syms source w).2).
Proof.
  intros Hq Hne. simpl. unfold prices_handler. rewrite Hq. simpl.
  destruct symbols as [|c symbols]; [done|]. simpl.
  unfold mbind, M_bind, bind. rewrite allSettled_promises.
  rewrite forEach_classify_batch;
    [done | apply run_batch_length | apply run_batch_loud].
Qed.


Lemma errors_field_cases (es : list jsstring) :
  (if bool_decide (0 < length es)%nat then Some es else None)
  = match es with [] => None | _ :: _ => Some es end.
Proof.
  destruct es; [done|]. by rewrite bool_decide_true by (simpl; lia).
Qed.

(** The one fetch of [/price/:symbol]. *)
Lemma price_handler_log req w :
  dispatched (price_handler req w).2
  = dispatched w
    ++ [(toUpperCase (params_symbol req),
         or_default (query_source req) (lit "yahoo"))].
Proof.
  pose proof (fetchPrice_outcome (toUpperCase (params_symbol req))
                (or_default (query_source req) (lit "yahoo")) w) as [Hlog _].
  unfold price_handler, try_catch, mbind, M_bind, bind.
  by destruct (fetchPrice _ _ w) as [[q|m] w'].
Qed.

(** *** The claims about [/prices] *)

(** C1. For every [GET /prices] request with a non-empty [symbols]
    parameter, the body is an Aggregate Result in which
    [total_requested] is the number of symbols left after parsing,
    [total_successful] the length of [prices], [total_failed] the length
    of [errors] (no element when the field is undefined), and the first
    is the sum of the other two. *)
Theorem prices_totals req w symbols :
  query_symbols req = Some symbols → symbols ≠ [] →
  ∃ a w',
    prices_handler req w = (Ok (json (BAggregate a)), w')
    ∧ Aggregate.total_requested a = length (symbolList symbols)
    ∧ Aggregate.total_successful a = length (Aggregate.prices a)
    ∧ Aggregate.total_failed a = length (default [] (Aggregate.errors a))
    ∧ (Aggregate.total_successful a + Aggregate.total_failed a
       = Aggregate.total_requested a)%nat.
Proof.
  intros Hq Hne. eexists _, _.
  split; [by apply prices_handler_batch|]. simpl.
  repeat split.
  - case_bool_decide as Hlen; [done|]. simpl.
    destruct (failures _ _); [done | simpl in Hlen; lia].
  - apply successes_failures_length, run_batch_length.
Qed.

Lemma successes_lookup outs i q :
  outs !! i = Some (Ok q) → FQuote q ∈ successes outs.
Proof.
  intros Hi. unfold successes. apply list_elem_of_omap.
  exists (Ok q). split; [|done]. by apply list_elem_of_lookup_2 in Hi.
Qed.

Lemma failures_lookup symbols outs i symbol m :
  symbols !! i = Some symbol → outs !! i = Some (Throw m) →
  symbol ++ lit ": " ++ m ∈ failures symbols outs.
Proof.
  intros Hs Hi. unfold failures. apply list_elem_of_omap.
  exists (symbol, Throw m). split; [|done].
  apply list_elem_of_lookup. exists i. by apply lookup_zip_Some.
Qed.

Lemma successes_quotes outs :
  Forall (λ v, ∃ q, v = FQuote q) (successes outs).
Proof.
  induction outs as [|r outs IH]; [constructor|].
  rewrite successes_cons. destruct r; [constructor|]; eauto.
Qed.

(** C2. In a [GET /prices] batch every symbol is fetched and the
    response is sent with status 200 whatever fails; each outcome goes to
    one list by itself: a quote into [prices], which holds quotes only,
    and a failure, as the string [symbol: message], into [errors].  When
    at least one fetch fails and at least one succeeds, both lists are
    populated. *)
Theorem prices_partition req w symbols :
  query_symbols req = Some symbols → symbols ≠ [] →
  let source := or_default (query_source req) (lit "yahoo") in
  let syms := symbolList symbols in
  let outs := (run_batch syms source w).1 in
  ∃ a,
    prices_handler req w
      = (Ok (json (BAggregate a)), (run_batch syms source w).2)
    ∧ length outs = length syms
    ∧ Aggregate.prices a = successes outs
    ∧ default [] (Aggregate.errors a) = failures syms outs
    ∧ Forall (λ v, ∃ q, v = FQuote q) (Aggregate.prices a)
    ∧ (∀ i q, outs !! i = Some (Ok q) → FQuote q ∈ Aggregate.prices a)
    ∧ (∀ i symbol m,
         syms !! i = Some symbol → outs !! i = Some (Throw m) →
         symbol ++ lit ": " ++ m ∈ default [] (Aggregate.errors a))
    ∧ ((∃ i m, outs !! i = Some (Throw m)) →
       (∃ j q, outs !! j = Some (Ok q)) →
       Aggregate.prices a ≠ []
       ∧ ∃ es, Aggregate.errors a = Some es ∧ es ≠ []).
Proof.
  intros Hq Hne source syms outs. eexists.
  split; [by apply prices_handler_batch|]. simpl. fold source syms outs.
  rewrite errors_field_cases.
  assert (default [] match failures syms outs with
                     | [] => None
                     | _ :: _ => Some (failures syms outs)
                     end = failures syms outs) as Hdef.
  { by destruct (failures syms outs). }
  rewrite Hdef.
  split; [apply run_batch_length|]. do 2 (split; [done|]).
  split; [apply successes_quotes|].
  split; [apply successes_lookup|].
  split; [apply failures_lookup|].
  intros (i & m & Hi) (j & q & Hj). split.
  - apply successes_lookup in Hj. intros E. rewrite E in Hj.
    by apply not_elem_of_nil in Hj.
  - destruct (syms !! i) as [symbol|] eqn:Hs.
    + pose proof (failures_lookup _ _ _ _ _ Hs Hi) as Hin.
      destruct (failures syms outs) as [|e es] eqn:Hf;
        [by apply not_elem_of_nil in Hin|].
      by exists (e :: es).
    + apply lookup_ge_None in Hs. apply lookup_lt_Some in Hi.
      subst outs. rewrite run_batch_length in Hi. lia.
Qed.


(** C5, as the code has it.  For every request with a non-empty [symbols]
    parameter, the fragments that are empty after trimming are dropped
    before any fetch is dispatched, and exactly one fetch is dispatched
    per remaining symbol occurrence, in input order: the symbols fetched
    are the uppercased tokens of the parameter, repeated ones included. *)
Theorem prices_dispatch req w symbols :
  query_symbols req = Some symbols → symbols ≠ [] →
  let source := or_default (query_source req) (lit "yahoo") in
  ∃ r w' ts,
    prices_handler req w = (Ok r, w')
    ∧ Tokens symbols ts
    ∧ dispatched w'
      = dispatched w ++ ((λ t, (toUpperCase t, source)) <$> ts)
    ∧ Forall (λ d, d.1 ≠ []) ((λ t, (toUpperCase t, source)) <$> ts).
Proof.
  intros Hq Hne source.
  eexists _, _, (List.filter nonempty (split symbols)).
  split; [by apply prices_handler_batch|].
  split; [apply split_Tokens|]. fold source.
  rewrite run_batch_log, symbolList_eq, <- list_fmap_compose.
  split; [done|].
  apply Forall_fmap, List.Forall_forall. intros t Ht. simpl.
  apply filter_In in Ht as [_ Ht]. apply toUpperCase_nonempty.
  by destruct t.
Qed.

(** C6, as the code has it.  The body of a [GET /prices] response to a
    request with a non-empty [symbols] parameter carries an [errors]
    field exactly when at least one symbol failed, and the field is then
    the non-empty list of the failure strings; when every symbol succeeds
    the field is undefined, and so left out of the body. *)
Theorem prices_errors_field req w symbols :
  query_symbols req = Some symbols → symbols ≠ [] →
  let source := or_default (query_source req) (lit "yahoo") in
  let syms := symbolList symbols in
  let outs := (run_batch syms source w).1 in
  ∃ a w',
    prices_handler req w = (Ok (json (BAggregate a)), w')
    ∧ (Aggregate.errors a = None ↔ Aggregate.total_failed a = 0%nat)
    ∧ (Aggregate.errors a = None ↔ ∀ r, r ∈ outs → ∃ q, r = Ok q)
    ∧ (∀ es, Aggregate.errors a = Some es →
             es ≠ [] ∧ es = failures syms outs).
Proof.
  intros Hq Hne source syms outs. eexists _, _.
  split; [by apply prices_handler_batch|]. simpl. fold source syms outs.
  assert (failures syms outs = [] ↔ ∀ r, r ∈ outs → ∃ q, r = Ok q) as Hall.
  { pose proof (run_batch_length syms source w) as Hlen. fold outs in Hlen.
    clearbody outs. clear -Hlen. revert outs Hlen.
    induction syms as [|symbol rest IH]; intros [|r outs] Hlen; try done.
    - split; [|done]. by intros _ r ?%not_elem_of_nil.
    - injection Hlen as Hlen. rewrite failures_cons.
      destruct r as [q|m].
      + rewrite IH by done. split.
        * intros H r [->|Hr]%elem_of_cons; eauto.
        * intros H r Hr. apply H. by right.
      + split; [done|]. intros H.
        destruct (H (Throw m)) as [q [=]]. by left. }
  rewrite <- Hall, errors_field_cases. clear Hall.
  destruct (failures syms outs) as [|e es] eqn:Hf; simpl; naive_solver.
Qed.

(** C7. For every [GET /prices] request without a [symbols] parameter the
    response has status 400 and the error code [MISSING_SYMBOLS], and
    the world is left as it was: no quote fetch is dispatched. *)
Theorem prices_missing_symbols symbol source w :
  ∃ message,
    prices_handler
      {| params_symbol := symbol; query_symbols := None;
         query_source := source |} w
    = (Ok {| status := 400;
             body := BError (lit "MISSING_SYMBOLS") message |}, w).
Proof. by eexists. Qed.

(** *** The claims about [/price/:symbol] and the source selector *)

(** C8. For every [GET /price/:symbol] request the symbol is uppercased
    before the one lookup that is dispatched; when the lookup returns a
    quote, the response is that quote (status 200), which carries the
    uppercased symbol, and when it fails with a message the response has
    status 400 and a body with the error code [PRICE_FETCH_FAILED] and a
    message. *)
Theorem price_handler_response req w :
  let symbol := toUpperCase (params_symbol req) in
  let source := or_default (query_source req) (lit "yahoo") in
  dispatched (price_handler req w).2 = dispatched w ++ [(symbol, source)]
  ∧ match fetchPrice symbol source w with
    | (Ok q, w') =>
        price_handler req w = (Ok {| status := 200; body := BQuote q |}, w')
        ∧ Quote.symbol q = symbol
    | (Throw m, w') =>
        price_handler req w
        = (Ok {| status := 400;
                 body := BError (lit "PRICE_FETCH_FAILED")
                           (lit "Failed to fetch price for " ++ symbol
                            ++ lit ": " ++ m) |}, w')
    end.
Proof.
  intros symbol source. split; [apply price_handler_log|].
  pose proof (fetchPrice_outcome symbol source w) as [_ Hr].
  unfold price_handler, try_catch, mbind, M_bind, bind.
  fold symbol source.
  destruct (fetchPrice symbol source w) as [[q|m] w']; simpl in *; done.
Qed.



(** *** The mock generator *)

Lemma basePrices_values symbol b :
  basePrices !! symbol = Some b → ∃ k : Z, 0 < k ∧ b = inject_Z k.
Proof.
  intros H. unfold basePrices in H. apply elem_of_list_to_map_2 in H.
  repeat (apply elem_of_cons in H as [[= -> ->]|H];
          [eexists; split; [|reflexivity]; lia|]).
  by apply not_elem_of_nil in H.
Qed.

(** A base price found in the table is the table's. *)
Lemma basePrice_table symbol b :
  basePrices !! symbol = Some b → basePrice symbol = b.
Proof.
  intros E. unfold basePrice. rewrite E.
  destruct (basePrices_values _ _ E) as (k & Hk & ->).
  destruct (Qeq_bool (inject_Z k) 0) eqn:H0; [|done].
  apply Qeq_bool_iff in H0. unfold Qeq in H0. simpl in H0. lia.
Qed.

Lemma basePrice_fallback symbol :
  basePrices !! symbol = None →
  basePrice symbol = (100 + inject_Z (Z.of_nat (length symbol)) * 10)%Q.
Proof. intros E. unfold basePrice. by rewrite E. Qed.

(** Every base price is a positive whole number of dollars. *)
Lemma basePrice_integral symbol :
  ∃ k : Z, 0 < k ∧ (basePrice symbol == inject_Z k)%Q.
Proof.
  destruct (basePrices !! symbol) as [b|] eqn:E.
  - rewrite (basePrice_table _ _ E).
    destruct (basePrices_values _ _ E) as (k & Hk & ->).
    exists k. split; [done|reflexivity].
  - rewrite (basePrice_fallback _ E).
    exists (100 + Z.of_nat (length symbol) * 10). split; [lia|].
    rewrite inject_Z_plus, inject_Z_mult. reflexivity.
Qed.

(** Rounding to cents keeps a price between two bounds that are whole
    numbers of cents. *)
Lemma toFixed2_between (k : Z) (b x : Q) :
  (b == inject_Z k)%Q → (0 <= x)%Q →
  (b * (95 # 100) <= x)%Q → (x < b * (105 # 100))%Q →
  (b * (95 # 100) <= toFixed2 x <= b * (105 # 100))%Q.
Proof.
  intros Hb Hx Hlo Hhi. unfold toFixed2.
  destruct (Qle_bool _ (Qabs x)); [split; [done|by apply Qlt_le_weak]|].
  rewrite Qabs_pos by done.
  assert (Qle_bool 0 x = true) as -> by by apply Qle_bool_iff.
  set (n := Qfloor (x * 100 + (1 # 2))).
  assert (95 * k <= n) as Hn1.
  { rewrite <- (Qfloor_Z (95 * k)). apply Qfloor_resp_le.
    rewrite inject_Z_mult, <- Hb. change (inject_Z 95) with 95%Q. lra. }
  assert (n <= 105 * k) as Hn2.
  { assert (n < 105 * k + 1); [|lia].
    rewrite Zlt_Qlt. eapply Qle_lt_trans; [apply Qfloor_le|].
    rewrite inject_Z_plus, inject_Z_mult, <- Hb.
    change (inject_Z 105) with 105%Q. change (inject_Z 1) with 1%Q. lra. }
  rewrite (Qmake_Qdiv n 100), Hb.
  rewrite Zle_Qle in Hn1, Hn2. rewrite inject_Z_mult in Hn1, Hn2.
  change (inject_Z 95) with 95%Q in Hn1.
  change (inject_Z 105) with 105%Q in Hn2.
  change (inject_Z (Z.pos 100)) with 100%Q.
  split.
  - apply Qle_shift_div_l; [done|]. lra.
  - apply Qle_shift_div_r; [done|]. lra.
Qed.

(** C3. For every ticker symbol the mock generator returns a quote, and
    never fails.  Its base price is the entry of the fixed table for the
    symbol, or 100 + 10 × length for a symbol the table lacks, and the
    price returned is within ±5% of it, for every random number that
    [Math.random] can draw (0 ≤ r < 1). *)
Theorem fetchMockPrice_within symbol w :
  ∃ q w',
    fetchMockPrice symbol w = (Ok q, w')
    ∧ match basePrices !! symbol with
      | Some b => basePrice symbol = b
      | None =>
          basePrice symbol
          = (100 + inject_Z (Z.of_nat (length symbol)) * 10)%Q
      end
    ∧ ((0 <= random env (rand_ix w) < 1)%Q →
       (basePrice symbol * (95 # 100) <= Quote.price q
        <= basePrice symbol * (105 # 100))%Q).
Proof.
  eexists _, _. split; [apply fetchMockPrice_run|]. split.
  - destruct (basePrices !! symbol) eqn:E;
      [by apply basePrice_table | by apply basePrice_fallback].
  - simpl. intros [Hr0 Hr1].
    destruct (basePrice_integral symbol) as (k & Hk & Hb).
    assert (0 < basePrice symbol)%Q as Hpos.
    { rewrite Hb. change 0%Q with (inject_Z 0). by rewrite <- Zlt_Qlt. }
    apply (toFixed2_between k); [done|nra..].
Qed.

(** *** The groups *)

(** C9. Any two requests to [GET /groups], whatever they carry and
    whatever the state of the world, are answered with status 200 and the
    same body: the static mapping of the six group keys. *)
Theorem groups_deterministic req1 req2 w1 w2 :
  ∃ r,
    groups_handler req1 w1 = (Ok r, w1)
    ∧ groups_handler req2 w2 = (Ok r, w2)
    ∧ status r = 200
    ∧ body r = BGroups groups
    ∧ groups.*1 = [lit "tech"; lit "finance"; lit "healthcare";
                   lit "energy"; lit "retail"; lit "crypto"].
Proof. by eexists. Qed.

(** ** More about the Yahoo client *)

Lemma bind_run {A B} (c : M A) (k : A → M B) w :
  (c ≫= k) w
  = match c w with
    | (Ok a, w1) => k a w1
    | (Throw m, w1) => (Throw m, w1)
    end.
Proof. reflexivity. Qed.

Lemma throws_ret {A} (a : A) P : throws (mret a) P.
Proof. intros w m w' [=]. Qed.
Lemma throws_throw {A} m (P : jsstring → Prop) : P m → throws (@throw A m) P.
Proof. intros Hm w m' w' [= <- _]. done. Qed.
Lemma throws_lift {A} (r : Result A) (P : jsstring → Prop) :
  (∀ m, r = Throw m → P m) → throws (lift r) P.
Proof. intros Hr w m w' [= -> _]. by apply Hr. Qed.
Lemma throws_bind {A B} (c : M A) (k : A → M B) P :
  throws c P → (∀ a, throws (k a) P) → throws (c ≫= k) P.
Proof.
  intros Hc Hk w m w'. rewrite bind_run.
  destruct (c w) as [[a|m0] w1] eqn:E; [apply Hk|].
  intros [= <- _]. by apply (Hc _ _ _ E).
Qed.
Lemma throws_now P : throws Date_now P.
Proof. intros w m w' [=]. Qed.

Lemma truthy_not_nullish v : truthy v = true → nullish v = false.
Proof. by destruct v. Qed.

(** Reading a property throws for [null] and [undefined] only. *)
Lemma getProp_Throw v k m :
  getProp v k = Throw m →
  nullish v = true
  ∧ m = lit "Cannot read properties of " ++ typeName v
        ++ lit " (reading '" ++ k ++ lit "')".
Proof. destruct v; intros [=]; by subst. Qed.

Lemma callToFixed2_Throw what v m :
  callToFixed2 what v = Throw m → m = lit what ++ lit ".toFixed is not a function".
Proof. destruct v; intros [=]; by subst. Qed.

Ltac throws_step :=
  first
    [ progress intros
    | apply throws_bind
    | apply throws_ret
    | apply throws_now
    | apply throws_throw
    | apply throws_lift
    | case_match ].

(** X1. Whatever goes wrong in [fetchYahooPrice], the caller sees an error
    whose message starts with [Yahoo API error: ], followed by one of: the
    message of the rejected request, [HTTP error: ] and a status other than
    200, the TypeError of reading [chart] from a body that is [null] or
    [undefined], one of the three shape complaints, or the TypeError of
    calling [toFixed] on a field that is not a number. *)
Theorem fetchYahooPrice_error_kinds symbol w m w' :
  fetchYahooPrice symbol w = (Throw m, w') →
  ∃ m', m = lit "Yahoo API error: " ++ m'
    ∧ (axios_get env (http_ix w) (yahoo_url symbol) = AxiosRejected m'
       ∨ (∃ st data,
            axios_get env (http_ix w) (yahoo_url symbol)
            = AxiosResponse st data
            ∧ ((st ≠ 200 ∧ m' = lit "HTTP error: " ++ string_of_Z st)
               ∨ (st = 200
                  ∧ ((nullish data = true
                      ∧ m' = lit "Cannot read properties of "
                             ++ typeName data
                             ++ lit " (reading 'chart')")
                     ∨ m' ∈ shape_complaints))))).
Proof.
  unfold fetchYahooPrice, try_catch. rewrite bind_run.
  unfold axios_get_await. fold (yahoo_url symbol).
  destruct (axios_get env (http_ix w) (yahoo_url symbol))
    as [mr|st data] eqn:Hax.
  - intros [= <- _]. eauto.
  - cbv beta iota. destruct (st =? 200) eqn:Hst; cbv beta iota.
    + apply Z.eqb_eq in Hst as ->. simpl negb. cbv iota.
      match goal with
      | |- context [?c {| rand_ix := _; clock_ix := _; http_ix := _;
                          dispatched := _ |}] =>
          lazymatch type of c with
          | M Quote.t =>
              assert (throws c
                        (λ m', (nullish data = true
                                ∧ m' = lit "Cannot read properties of "
                                       ++ typeName data
                                       ++ lit " (reading 'chart')")
                               ∨ m' ∈ shape_complaints)) as Hbody
          end
      end.
      { repeat throws_step.
        all: try (right; unfold shape_complaints;
                  repeat first [ apply list_elem_of_here
                               | apply list_elem_of_further ]; fail).
        all: try match goal with
             | H : getProp ?v _ = Throw _, Hn : nullish ?v = false |- _ =>
                 apply getProp_Throw in H as [? _]; congruence
             | H : getProp ?v _ = Throw _, Hn : negb (truthy ?v) = false |- _ =>
                 apply getProp_Throw in H as [? _];
                 apply negb_false_iff, truthy_not_nullish in Hn; congruence
             | H : callToFixed2 _ _ = Throw _ |- _ =>
                 apply callToFixed2_Throw in H as ->; right;
                 unfold shape_complaints;
                 repeat first [ apply list_elem_of_here
                              | apply list_elem_of_further ]
             | H : getProp _ _ = Throw _ |- _ =>
                 apply getProp_Throw in H as [? ->]; left; by split
             end. }
      match goal with
      | |- context [?c ?w1] =>
          lazymatch type of c with
          | M Quote.t => destruct (c w1) as [[q|m0] w0] eqn:Hrun
          end
      end; [done|].
      intros [= <- _]. exists m0. split; [done|].
      right. exists 200, data. split; [done|]. right. split; [done|].
      by apply (Hbody _ _ _ Hrun).
    + apply Z.eqb_neq in Hst. simpl negb. cbv iota.
      intros [= <- _]. eexists. split; [done|].
      right. exists st, data. eauto.
Qed.

Lemma roundedOrNull_falsy v : truthy v = false → roundedOrNull v = None.
Proof.
  destruct v as [| | |c| | |]; try done. simpl. by destruct (Qeq_bool c 0).
Qed.

(** X2. When the upstream API answers 200 with a body of the expected
    shape ([chart.result[0].meta] with a numeric [regularMarketPrice], and
    change fields that are numbers or missing), [fetchYahooPrice] makes one
    request, reads the clock once and returns the quote: the price rounded
    to cents (a price of 0 included), the currency of the body or [USD]
    when it has none, and each change rounded to cents, or [null] when the
    field is missing or zero. *)
Theorem fetchYahooPrice_quote symbol w fdata fchart fresult rest fmeta p :
  axios_get env (http_ix w) (yahoo_url symbol)
    = AxiosResponse 200 (VObj fdata) →
  assoc (lit "chart") fdata = VObj fchart →
  assoc (lit "result") fchart = VArr (VObj fresult :: rest) →
  assoc (lit "meta") fresult = VObj fmeta →
  assoc (lit "regularMarketPrice") fmeta = VNum p →
  optionalNumber (assoc (lit "regularMarketChange") fmeta) →
  optionalNumber (assoc (lit "regularMarketChangePercent") fmeta) →
  fetchYahooPrice symbol w
  = (Ok {| Quote.symbol := symbol;
           Quote.price := toFixed2 p;
           Quote.currency :=
             if truthy (assoc (lit "currency") fmeta)
             then assoc (lit "currency") fmeta else VStr (lit "USD");
           Quote.timestamp := now env (clock_ix w) / 1000;
           Quote.source := lit "yahoo";
           Quote.change_24h :=
             roundedOrNull (assoc (lit "regularMarketChange") fmeta);
           Quote.change_percent_24h :=
             roundedOrNull (assoc (lit "regularMarketChangePercent") fmeta) |},
     {| rand_ix := rand_ix w; clock_ix := S (clock_ix w);
        http_ix := S (http_ix w); dispatched := dispatched w |}).
Proof.
  intros Hax Hchart Hresult Hmeta Hprice Hchange Hpercent.
  unfold fetchYahooPrice, try_catch, mbind, M_bind, bind, axios_get_await,
    lift, mret, M_ret, ret, Date_now.
  fold (yahoo_url symbol). rewrite Hax, Z.eqb_refl. simpl.
  rewrite Hchart. simpl. rewrite Hresult. simpl. rewrite Hmeta. simpl.
  rewrite Hprice. simpl.
  assert (∀ v, optionalNumber v →
            (truthy v = false ∧ roundedOrNull v = None)
            ∨ (∃ c, v = VNum c ∧ truthy v = true
                    ∧ roundedOrNull v = Some (toFixed2 c))) as Hcases.
  { intros v [Hv | [c ->]].
    - left. split; [done | by apply roundedOrNull_falsy].
    - simpl. destruct (Qeq_bool c 0); [by left | right; by exists c]. }
  destruct (Hcases _ Hchange) as [[Hc ->] | (c & Hc & Htc & ->)],
           (Hcases _ Hpercent) as [[Hp ->] | (c' & Hp & Htp & ->)];
    rewrite ?Htc, ?Htp; rewrite Hc; simpl; rewrite Hp; reflexivity.
Qed.

Lemma keeps_ret {A B} (f : World → B) (a : A) : keeps f (mret a).
Proof. done. Qed.
Lemma keeps_throw {A B} (f : World → B) m : keeps f (@throw A m).
Proof. done. Qed.
Lemma keeps_lift {A B} (f : World → B) (r : Result A) : keeps f (lift r).
Proof. done. Qed.
Lemma keeps_bind {A A' B} (f : World → B) (c : M A) (k : A → M A') :
  keeps f c → (∀ a, keeps f (k a)) → keeps f (c ≫= k).
Proof.
  intros Hc Hk w. rewrite bind_run. specialize (Hc w).
  destruct (c w) as [[a|m] w1]; simpl in *; [|done]. by rewrite Hk.
Qed.
Lemma keeps_try {A B} (f : World → B) (c : M A) (h : jsstring → M A) :
  keeps f c → (∀ m, keeps f (h m)) → keeps f (try_catch c h).
Proof.
  intros Hc Hh w. unfold try_catch. specialize (Hc w).
  destruct (c w) as [[a|m] w1]; simpl in *; [done|]. by rewrite Hh.
Qed.

Ltac keeps_step :=
  first
    [ progress intros
    | apply keeps_try
    | apply keeps_bind
    | apply keeps_ret
    | apply keeps_throw
    | apply keeps_lift
    | solve [intros ?; reflexivity]
    | case_match ].

Lemma ticks_le_keeps {A} n (c : M A) : keeps clock_ix c → ticks_le n c.
Proof. intros Hc w. rewrite Hc. lia. Qed.
Lemma ticks_le_bind {A A'} n (c : M A) (k : A → M A') :
  keeps clock_ix c → (∀ a, ticks_le n (k a)) → ticks_le n (c ≫= k).
Proof.
  intros Hc Hk w. rewrite bind_run. specialize (Hc w).
  destruct (c w) as [[a|m] w1]; simpl in *; [|lia].
  specialize (Hk a w1). lia.
Qed.
Lemma ticks_le_now {A} (k : Z → M A) :
  (∀ t, keeps clock_ix (k t)) → ticks_le 1 (Date_now ≫= k).
Proof.
  intros Hk w. rewrite bind_run. unfold Date_now. rewrite Hk. simpl. lia.
Qed.

Ltac ticks_step :=
  first
    [ progress intros
    | apply ticks_le_now; solve [repeat keeps_step]
    | apply ticks_le_bind; [solve [repeat keeps_step]|]
    | apply ticks_le_keeps; solve [repeat keeps_step]
    | case_match ].

(** What one call of the Yahoo client consumes. *)
Lemma fetchYahooPrice_usage symbol w :
  let w' := (fetchYahooPrice symbol w).2 in
  http_ix w' = S (http_ix w)
  ∧ rand_ix w' = rand_ix w
  ∧ dispatched w' = dispatched w
  ∧ (clock_ix w ≤ clock_ix w' ≤ S (clock_ix w))%nat.
Proof.
  assert (∀ {B} (f : World → B),
            (∀ w0, f {| rand_ix := rand_ix w0; clock_ix := S (clock_ix w0);
                        http_ix := http_ix w0;
                        dispatched := dispatched w0 |} = f w0) →
            f (fetchYahooPrice symbol w).2
            = f {| rand_ix := rand_ix w; clock_ix := clock_ix w;
                   http_ix := S (http_ix w); dispatched := dispatched w |})
    as Hkeep.
  { intros B f Hf. unfold fetchYahooPrice, try_catch. rewrite bind_run.
    unfold axios_get_await.
    destruct (axios_get env (http_ix w) _) as [mr|st data]; [done|].
    cbv beta iota.
    match goal with
    | |- context [?c {| rand_ix := _; clock_ix := _; http_ix := _;
                        dispatched := _ |}] =>
        lazymatch type of c with
        | M Quote.t => assert (keeps f c) as Hbody
        end
    end.
    { repeat keeps_step. all: intros w0; apply Hf. }
    match goal with
    | |- context [?c ?w1] =>
        lazymatch type of c with
        | M Quote.t =>
            specialize (Hbody w1); destruct (c w1) as [[q|m0] w0]
        end
    end; exact Hbody. }
  simpl. split; [apply (Hkeep _ http_ix); done|].
  split; [apply (Hkeep _ rand_ix); done|].
  split; [apply (Hkeep _ dispatched); done|].
  unfold fetchYahooPrice, try_catch. rewrite bind_run.
  unfold axios_get_await.
  destruct (axios_get env (http_ix w) _) as [mr|st data]; [simpl; lia|].
  cbv beta iota.
  match goal with
  | |- context [?c {| rand_ix := _; clock_ix := _; http_ix := _;
                      dispatched := _ |}] =>
      lazymatch type of c with
      | M Quote.t => assert (ticks_le 1 c) as Hbody
      end
  end.
  { repeat ticks_step. }
  match goal with
  | |- context [?c ?w1] =>
      lazymatch type of c with
      | M Quote.t =>
          specialize (Hbody w1); destruct (c w1) as [[q|m0] w0]
      end
  end; simpl in *; lia.
Qed.

(** X3. However it ends, a call of [fetchYahooPrice] makes exactly one
    outbound request: nothing is retried.  It draws no random number, logs
    no fetch, and reads the clock once at most.  So does a call of
    [fetchPrice] whose source selects Yahoo, which logs its one fetch
    besides. *)
Theorem fetchYahooPrice_one_request symbol w :
  (let w' := (fetchYahooPrice symbol w).2 in
   http_ix w' = S (http_ix w)
   ∧ rand_ix w' = rand_ix w
   ∧ dispatched w' = dispatched w
   ∧ (clock_ix w ≤ clock_ix w' ≤ S (clock_ix w))%nat)
  ∧ (∀ source, toLowerCase source = lit "yahoo" →
       let w' := (fetchPrice symbol source w).2 in
       http_ix w' = S (http_ix w)
       ∧ rand_ix w' = rand_ix w
       ∧ dispatched w' = dispatched w ++ [(symbol, source)]
       ∧ (clock_ix w ≤ clock_ix w' ≤ S (clock_ix w))%nat).
Proof.
  split; [apply fetchYahooPrice_usage|].
  intros source Hsrc. rewrite fetchPrice_unfold, bool_decide_true by done.
  match goal with
  | |- context [fetchYahooPrice symbol ?w0] =>
      pose proof (fetchYahooPrice_usage symbol w0) as (Hh & Hr & Hd & Hc)
  end.
  simpl in *. by rewrite Hh, Hr, Hd.
Qed.

(** X4. A request that is rejected (a network error, a timeout, a status
    outside 2xx) and a response whose status is not 200 both end in an
    ordinary error, after the one request and without reading the body or
    the clock. *)
Theorem fetchYahooPrice_transport symbol w :
  let w' := {| rand_ix := rand_ix w; clock_ix := clock_ix w;
               http_ix := S (http_ix w); dispatched := dispatched w |} in
  (∀ m, axios_get env (http_ix w) (yahoo_url symbol) = AxiosRejected m →
        fetchYahooPrice symbol w
        = (Throw (lit "Yahoo API error: " ++ m), w'))
  ∧ (∀ st data,
       axios_get env (http_ix w) (yahoo_url symbol) = AxiosResponse st data →
       st ≠ 200 →
       fetchYahooPrice symbol w
       = (Throw (lit "Yahoo API error: " ++ lit "HTTP error: "
                 ++ string_of_Z st), w')).
Proof.
  split.
  - intros m Hax. unfold fetchYahooPrice, try_catch. rewrite bind_run.
    unfold axios_get_await. fold (yahoo_url symbol). by rewrite Hax.
  - intros st data Hax Hst. unfold fetchYahooPrice, try_catch.
    rewrite bind_run. unfold axios_get_await. fold (yahoo_url symbol).
    rewrite Hax. apply Z.eqb_neq in Hst. cbv beta iota. by rewrite Hst.
Qed.

(** X5. A 200 response whose body lacks what the client looks for is an
    error, not a quote: no [result] (it is [null], missing, or an empty
    array) is [Invalid response format], a first result without [meta] is
    [Missing meta data], a [meta] without [regularMarketPrice] (missing or
    [null]) is [Missing price data], and a price sent as a string is the
    TypeError of [toFixed].  The clock is not read. *)
Theorem fetchYahooPrice_incomplete symbol w fdata fchart :
  axios_get env (http_ix w) (yahoo_url symbol)
    = AxiosResponse 200 (VObj fdata) →
  assoc (lit "chart") fdata = VObj fchart →
  let w' := {| rand_ix := rand_ix w; clock_ix := clock_ix w;
               http_ix := S (http_ix w); dispatched := dispatched w |} in
  let fails m := fetchYahooPrice symbol w
                 = (Throw (lit "Yahoo API error: " ++ lit m), w') in
  (nullish (assoc (lit "result") fchart) = true
   ∨ assoc (lit "result") fchart = VArr [] →
   fails "Invalid response format"%string)
  ∧ (∀ fresult rest,
       assoc (lit "result") fchart = VArr (VObj fresult :: rest) →
       (truthy (assoc (lit "meta") fresult) = false →
        fails "Missing meta data"%string)
       ∧ (∀ fmeta,
            assoc (lit "meta") fresult = VObj fmeta →
            (nullish (assoc (lit "regularMarketPrice") fmeta) = true →
             fails "Missing price data"%string)
            ∧ (∀ s, assoc (lit "regularMarketPrice") fmeta = VStr s →
                    fails "price.toFixed is not a function"%string))).
Proof.
  intros Hax Hchart w' fails. subst fails.
  unfold fetchYahooPrice, try_catch, mbind, M_bind, bind, axios_get_await,
    lift, mret, M_ret, ret, throw.
  fold (yahoo_url symbol). rewrite Hax, Z.eqb_refl. simpl.
  rewrite Hchart. simpl.
  split.
  - intros [Hr | Hr]; rewrite Hr; reflexivity.
  - intros fresult rest Hr. rewrite Hr. simpl. split.
    + intros Hm. rewrite Hm. reflexivity.
    + intros fmeta Hm. rewrite Hm. simpl. split.
      * intros Hp. rewrite Hp. reflexivity.
      * intros s Hp. rewrite Hp. reflexivity.
Qed.




(** ** More about rounding and the mock generator *)

Lemma Qfloor_half_bounds (y : Q) :
  (inject_Z (Qfloor (y + (1 # 2))) <= y + (1 # 2))%Q
  ∧ (y - (1 # 2) < inject_Z (Qfloor (y + (1 # 2))))%Q.
Proof.
  split; [apply Qfloor_le|].
  pose proof (Qlt_floor (y + (1 # 2))) as H.
  rewrite inject_Z_plus in H. change (inject_Z 1) with 1%Q in H. lra.
Qed.

Lemma Qmake_100 (n : Z) : (Qmake n 100 * 100 == inject_Z n)%Q.
Proof. rewrite (Qmake_Qdiv n 100). change (inject_Z (Z.pos 100)) with 100%Q. field. Qed.

(** X7. [parseFloat(x.toFixed(2))] moves a number by half a cent at most,
    and leaves a number that it produced as it is. *)
Theorem toFixed2_accuracy (x : Q) :
  (Qabs (toFixed2 x - x) <= 1 # 200)%Q
  ∧ (toFixed2 (toFixed2 x) == toFixed2 x)%Q.
Proof.
  assert (∀ y, (Qabs (toFixed2 y - y) <= 1 # 200)%Q) as Hacc.
  { intros y. apply Qabs_Qle_condition. unfold toFixed2.
    destruct (Qle_bool _ (Qabs y)); [split; lra|].
    destruct (Qle_bool 0 y) eqn:Hy.
    - apply Qle_bool_iff in Hy. rewrite Qabs_pos by done.
      destruct (Qfloor_half_bounds (y * 100)) as [H1 H2].
      pose proof (Qmake_100 (Qfloor (y * 100 + (1 # 2)))) as H.
      split; lra.
    - assert (y < 0)%Q as Hneg.
      { apply Qnot_le_lt. intros H%Qle_bool_iff. congruence. }
      rewrite Qabs_neg by lra.
      destruct (Qfloor_half_bounds (- y * 100)) as [H1 H2].
      pose proof (Qmake_100 (- Qfloor (- y * 100 + (1 # 2)))) as H.
      rewrite inject_Z_opp in H. split; lra. }
  split; [apply Hacc|].
  unfold toFixed2 at 2 3.
  destruct (Qle_bool _ (Qabs x)) eqn:Hbig.
  { unfold toFixed2. by rewrite Hbig. }
  set (n := Qfloor (Qabs x * 100 + (1 # 2))).
  assert (0 <= n) as Hn.
  { rewrite <- (Qfloor_Z 0). apply Qfloor_resp_le.
    pose proof (Qabs_nonneg x). change (inject_Z 0) with 0%Q. lra. }
  assert (∀ r : Q, (Qabs r * 100 == inject_Z n)%Q →
            Qfloor (Qabs r * 100 + (1 # 2)) = n) as Hfl.
  { intros r Hr.
    destruct (Qfloor_half_bounds (Qabs r * 100)) as [H1 H2].
    assert (Qfloor (Qabs r * 100 + (1 # 2)) < n + 1).
    { rewrite Zlt_Qlt, inject_Z_plus. change (inject_Z 1) with 1%Q.
      lra. }
    assert (n < Qfloor (Qabs r * 100 + (1 # 2)) + 1).
    { rewrite Zlt_Qlt, inject_Z_plus. change (inject_Z 1) with 1%Q.
      lra. }
    lia. }
  assert (∀ r : Q, (Qabs r * 100 == inject_Z n)%Q →
            (toFixed2 r == r)%Q) as Hid.
  { intros r Hr. unfold toFixed2.
    destruct (Qle_bool _ (Qabs r)); [done|].
    rewrite (Hfl r Hr).
    destruct (Qle_bool 0 r) eqn:H0.
    - apply Qle_bool_iff in H0. rewrite Qabs_pos in Hr by done.
      pose proof (Qmake_100 n). lra.
    - assert (r < 0)%Q as Hneg.
      { apply Qnot_le_lt. intros H%Qle_bool_iff. congruence. }
      rewrite Qabs_neg in Hr by lra.
      pose proof (Qmake_100 (- n)) as H. rewrite inject_Z_opp in H. lra. }
  destruct (Qle_bool 0 x); apply Hid.
  - rewrite Qabs_pos; [apply Qmake_100|].
    pose proof (Qmake_100 n). rewrite Zle_Qle in Hn.
    change (inject_Z 0) with 0%Q in Hn. lra.
  - rewrite Qabs_neg.
    + pose proof (Qmake_100 (- n)) as H. rewrite inject_Z_opp in H. lra.
    + pose proof (Qmake_100 (- n)) as H. rewrite inject_Z_opp in H.
      rewrite Zle_Qle in Hn. change (inject_Z 0) with 0%Q in Hn. lra.
Qed.

(** Rounding to cents stays between two whole numbers of cents. *)
Lemma toFixed2_cents (a b : Z) (x : Q) :
  (inject_Z a <= x * 100)%Q → (x * 100 <= inject_Z b)%Q →
  (inject_Z a <= toFixed2 x * 100 <= inject_Z b)%Q.
Proof.
  intros Ha Hb. unfold toFixed2.
  destruct (Qle_bool _ (Qabs x)); [done|].
  destruct (Qle_bool 0 x) eqn:Hx.
  - apply Qle_bool_iff in Hx. rewrite Qabs_pos by done.
    set (n := Qfloor (x * 100 + (1 # 2))).
    destruct (Qfloor_half_bounds (x * 100)) as [H1 H2]. fold n in H1, H2.
    assert (a <= n).
    { rewrite <- (Qfloor_Z a). apply Qfloor_resp_le. lra. }
    assert (n < b + 1).
    { rewrite Zlt_Qlt, inject_Z_plus. change (inject_Z 1) with 1%Q. lra. }
    assert (n <= b) as Hnb by lia.
    rewrite (Qmake_100 n). rewrite <- !Zle_Qle. done.
  - assert (x < 0)%Q as Hneg.
    { apply Qnot_le_lt. intros H%Qle_bool_iff. congruence. }
    rewrite Qabs_neg by lra.
    set (n := Qfloor (- x * 100 + (1 # 2))).
    destruct (Qfloor_half_bounds (- x * 100)) as [H1 H2]. fold n in H1, H2.
    assert (- b <= n).
    { rewrite <- (Qfloor_Z (- b)). apply Qfloor_resp_le.
      rewrite inject_Z_opp. lra. }
    assert (n < - a + 1).
    { rewrite Zlt_Qlt, inject_Z_plus, inject_Z_opp.
      change (inject_Z 1) with 1%Q. lra. }
    rewrite (Qmake_100 (- n)). rewrite <- !Zle_Qle. lia.
Qed.

(** No base price is below 30, the entry of [BAC]. *)
Lemma basePrice_min symbol : (30 <= basePrice symbol)%Q.
Proof.
  destruct (basePrices !! symbol) as [b|] eqn:E.
  - rewrite (basePrice_table _ _ E).
    unfold basePrices in E. apply elem_of_list_to_map_2 in E.
    repeat (apply elem_of_cons in E as [[= -> ->]|E]; [done|]).
    by apply not_elem_of_nil in E.
  - rewrite (basePrice_fallback _ E).
    assert (0 <= inject_Z (Z.of_nat (length symbol)))%Q.
    { change 0%Q with (inject_Z 0). rewrite <- Zle_Qle. lia. }
    lra.
Qed.

(** X8. Whatever [Math.random] draws (0 ≤ r < 1), a mock quote is in US
    dollars, its price is 28.50 at least, and its 24h change lies within
    ±5 dollars. *)
Theorem fetchMockPrice_ranges symbol w :
  (0 <= random env (rand_ix w) < 1)%Q →
  (0 <= random env (S (rand_ix w)) < 1)%Q →
  ∃ q w' c,
    fetchMockPrice symbol w = (Ok q, w')
    ∧ Quote.currency q = VStr (lit "USD")
    ∧ (57 # 2 <= Quote.price q)%Q
    ∧ Quote.change_24h q = Some c
    ∧ (- (5) <= c <= 5)%Q.
Proof.
  intros [Hr0 Hr1] [Hs0 Hs1]. eexists _, _, _.
  split; [apply fetchMockPrice_run|]. simpl.
  split; [done|]. split; [|split; [done|]].
  - destruct (basePrice_integral symbol) as (k & Hk & Hb).
    pose proof (basePrice_min symbol) as Hmin.
    destruct (toFixed2_between k (basePrice symbol)
                (basePrice symbol
                 * (1 + (random env (rand_ix w) - (1 # 2)) * (1 # 10)))%Q)
      as [Hlo _]; [done|nra..|].
    lra.
  - destruct (toFixed2_cents (-500) 500
                ((random env (S (rand_ix w)) - (1 # 2)) * 10)%Q) as [H1 H2].
    + change (inject_Z (-500)) with (-500)%Q. lra.
    + change (inject_Z 500) with 500%Q. lra.
    + change (inject_Z (-500)) with (-500)%Q in H1.
      change (inject_Z 500) with 500%Q in H2. split; lra.
Qed.

(** ** More about the parsing of the symbols *)

Lemma filter_split_Tokens (s : jsstring) ts :
  Tokens s ts → List.filter nonempty (split s) = ts.
Proof. intros H. apply (Tokens_functional s); [apply split_Tokens | done]. Qed.

Lemma Tokens_app_sep (a b : jsstring) c ta tb :
  isSep c = true → Tokens a ta → Tokens b tb →
  Tokens (a ++ c :: b) (ta ++ tb).
Proof.
  intros Hc Ha Hb.
  induction Ha as [|c' s ts Hc' Ha IH|t s ts Hne Ht Hbd Ha IH]; simpl.
  - by apply Tokens_skip.
  - by apply Tokens_skip.
  - rewrite <- app_assoc. apply Tokens_word; try done.
    destruct s; simpl; done.
Qed.

(** X9. Two lists of symbols put together with a comma, or with any
    separator character, are parsed into the symbols of the first followed
    by the symbols of the second: what a fragment yields does not depend
    on its neighbours. *)
Theorem symbolList_app_sep (a b : jsstring) (c : N) :
  isSep c = true →
  symbolList (a ++ c :: b) = symbolList a ++ symbolList b.
Proof.
  intros Hc. rewrite !symbolList_eq, <- fmap_app. f_equal.
  apply filter_split_Tokens, Tokens_app_sep; [done|apply split_Tokens..].
Qed.

Lemma Tokens_join_comma (ts : list jsstring) :
  Forall (λ t, t ≠ [] ∧ sepFree t) ts → Tokens (join_comma ts) ts.
Proof.
  induction 1 as [|t ts [Hne Ht] Hts IH]; [constructor|].
  destruct ts as [|t' ts'].
  - simpl. rewrite <- (app_nil_r t) at 1.
    apply Tokens_word; [done..|constructor].
  - change (join_comma (t :: t' :: ts'))
      with (t ++ 44%N :: join_comma (t' :: ts')).
    apply Tokens_word; [done..|]. by apply Tokens_skip.
Qed.

(** X10. A list of symbols written into the [symbols] parameter with
    commas is read back as it was: when the symbols are not empty and hold
    no comma or whitespace, [GET /prices] parses the joined string into
    the same symbols, uppercased, in the same order. *)
Theorem symbolList_join_comma (ts : list jsstring) :
  Forall (λ t, t ≠ [] ∧ sepFree t) ts →
  symbolList (join_comma ts) = toUpperCase <$> ts.
Proof.
  intros Hts. rewrite symbolList_eq. f_equal.
  by apply filter_split_Tokens, Tokens_join_comma.
Qed.

(** ** More about the batch *)

Lemma run_batch_symbols symbols source w :
  Forall2 (λ symbol r, match r with
                       | Ok q => Quote.symbol q = symbol
                       | Throw _ => True
                       end)
    symbols (run_batch symbols source w).1.
Proof.
  revert w. induction symbols as [|symbol rest IH]; intros w; simpl.
  - constructor.
  - pose proof (fetchPrice_outcome symbol source w) as [_ Hr].
    destruct (fetchPrice symbol source w) as [r w1].
    specialize (IH w1). destruct (run_batch rest source w1) as [rs w2].
    simpl in *. constructor; [|done]. by destruct r.
Qed.



Lemma Tokens_separators (s : jsstring) :
  Forall (λ c, isSep c = true) s → Tokens s [].
Proof. induction 1; [constructor | by apply Tokens_skip]. Qed.

(** X13. A [symbols] parameter made of commas and whitespace only names no
    symbol: the response is 200 with nothing requested, no price, no
    [errors] field and [success] false, and nothing is fetched. *)
Theorem prices_only_separators req w symbols :
  query_symbols req = Some symbols → symbols ≠ [] →
  Forall (λ c, isSep c = true) symbols →
  prices_handler req w
  = (Ok {| status := 200;
           body := BAggregate
             {| Aggregate.success := false;
                Aggregate.prices := [];
                Aggregate.errors := None;
                Aggregate.total_requested := 0;
                Aggregate.total_successful := 0;
                Aggregate.total_failed := 0 |} |}, w).
Proof.
  intros Hq Hne Hsep.
  rewrite (prices_handler_batch req w symbols Hq Hne).
  assert (symbolList symbols = []) as ->; [|done].
  rewrite symbolList_eq.
  by rewrite (filter_split_Tokens _ _ (Tokens_separators _ Hsep)).
Qed.

(** X14. The [success] flag of a [GET /prices] response tells whether at
    least one fetch returned a quote; when all of them fail the response is
    still sent with status 200, and the flag is false. *)
Theorem prices_success_flag req w symbols :
  query_symbols req = Some symbols → symbols ≠ [] →
  let source := or_default (query_source req) (lit "yahoo") in
  let outs := (run_batch (symbolList symbols) source w).1 in
  ∃ a w',
    prices_handler req w = (Ok {| status := 200; body := BAggregate a |}, w')
    ∧ (Aggregate.success a = true ↔ ∃ i q, outs !! i = Some (Ok q))
    ∧ (Aggregate.success a = false ↔ Aggregate.prices a = []).
Proof.
  intros Hq Hne source outs. eexists _, _.
  split; [by apply prices_handler_batch|]. simpl. fold source outs.
  assert ((∃ i q, outs !! i = Some (Ok q)) ↔ successes outs ≠ []) as Hsome.
  { clearbody outs. induction outs as [|r outs IH].
    - split; [|done]. intros (i & q & Hi). by rewrite lookup_nil in Hi.
    - rewrite successes_cons. destruct r as [q|m].
      + split; [done|]. intros _. by exists 0%nat, q.
      + rewrite <- IH. split; intros (i & q & Hi).
        * destruct i as [|i]; [done|]. by exists i, q.
        * by exists (S i), q. }
  rewrite Hsome.
  destruct (successes outs) as [|v vs] eqn:Hs; simpl; split; done.
Qed.

Lemma failures_all_ok symbols (outs : list (Result Quote.t)) :
  Forall (λ r, ∃ q, r = Ok q) outs →
  failures symbols outs = [] ∧ length (successes outs) = length outs.
Proof.
  intros H. revert symbols.
  induction H as [|r outs [q ->] H IH]; intros symbols.
  - by destruct symbols.
  - rewrite successes_cons. destruct symbols as [|symbol symbols]; simpl.
    + split; [done|]. f_equal. apply (IH []).
    + rewrite failures_cons. destruct (IH symbols) as [-> ->]. done.
Qed.

(** A batch whose source does not select Yahoo runs the mock generator for
    every symbol. *)
Lemma run_batch_mock symbols source w :
  toLowerCase source ≠ lit "yahoo" →
  Forall (λ r, ∃ q, r = Ok q ∧ Quote.source q = lit "mock")
    (run_batch symbols source w).1
  ∧ http_ix (run_batch symbols source w).2 = http_ix w
  ∧ rand_ix (run_batch symbols source w).2
    = (rand_ix w + 2 * length symbols)%nat.
Proof.
  intros Hsrc. revert w.
  induction symbols as [|symbol rest IH]; intros w; simpl.
  - repeat split; [constructor | lia].
  - rewrite fetchPrice_unfold, bool_decide_false, fetchMockPrice_run by done.
    match goal with
    | |- context [run_batch rest source ?w1] =>
        destruct (IH w1) as (Hall & Hhttp & Hrand);
        destruct (run_batch rest source w1) as [rs w2]
    end.
    simpl in *. repeat split; [|done|lia].
    constructor; [|done]. by eexists.
Qed.

(** X15. With a source that does not select Yahoo ([mock] in any case of
    letters, or an unknown one), a [GET /prices] batch cannot fail: every
    requested symbol gets a mock quote, there is no [errors] field, no
    outbound request is made, and two random numbers are drawn per
    symbol. *)
Theorem prices_mock_batch req w symbols :
  query_symbols req = Some symbols → symbols ≠ [] →
  toLowerCase (or_default (query_source req) (lit "yahoo")) ≠ lit "yahoo" →
  ∃ a w',
    prices_handler req w = (Ok {| status := 200; body := BAggregate a |}, w')
    ∧ Aggregate.total_successful a = Aggregate.total_requested a
    ∧ Aggregate.total_failed a = 0%nat
    ∧ Aggregate.errors a = None
    ∧ Forall (λ v, ∃ q, v = FQuote q ∧ Quote.source q = lit "mock")
        (Aggregate.prices a)
    ∧ http_ix w' = http_ix w
    ∧ rand_ix w' = (rand_ix w + 2 * Aggregate.total_requested a)%nat.
Proof.
  intros Hq Hne Hsrc. eexists _, _.
  split; [by apply prices_handler_batch|]. simpl.
  set (source := or_default (query_source req) (lit "yahoo")) in *.
  set (syms := symbolList symbols).
  destruct (run_batch_mock syms source w Hsrc) as (Hall & Hhttp & Hrand).
  pose proof (run_batch_length syms source w) as Hlen.
  destruct (failures_all_ok syms (run_batch syms source w).1) as [Hf Hs].
  { eapply Forall_impl; [exact Hall|]. intros r (q & -> & _). eauto. }
  rewrite Hf, Hs, Hlen. simpl. repeat split; try done.
  clear -Hall. induction Hall as [|r outs (q & -> & Hsrc) H IH];
    [constructor|].
  rewrite successes_cons. constructor; [eauto | done].
Qed.

Lemma run_batch_yahoo symbols source w :
  toLowerCase source = lit "yahoo" →
  http_ix (run_batch symbols source w).2 = (http_ix w + length symbols)%nat
  ∧ rand_ix (run_batch symbols source w).2 = rand_ix w
  ∧ Forall (λ r, match r with
                 | Ok q => Quote.source q = lit "yahoo"
                 | Throw m => ∃ m', m = lit "Yahoo API error: " ++ m'
                 end) (run_batch symbols source w).1.
Proof.
  intros Hsrc. revert w.
  induction symbols as [|symbol rest IH]; intros w; simpl.
  - repeat split; [lia | constructor].
  - rewrite fetchPrice_unfold, bool_decide_true by done.
    match goal with
    | |- context [fetchYahooPrice symbol ?w0] =>
        pose proof (fetchYahooPrice_usage symbol w0) as (Hh & Hr & _);
        destruct (fetchYahooPrice symbol w0) as [r w1] eqn:Hrun
    end.
    destruct (IH w1) as (Hhttp & Hrand & Hall).
    destruct (run_batch rest source w1) as [rs w2].
    simpl in *. repeat split; [lia | congruence |].
    constructor; [|done]. destruct r as [q|m].
    + by apply fetchYahooPrice_returns in Hrun as [_ ?].
    + by apply fetchYahooPrice_throws in Hrun.
Qed.

(** X16. With the Yahoo source a [GET /prices] batch makes exactly one
    outbound request per requested symbol, repeated symbols included, and
    draws no random number; every quote is marked [yahoo] and every entry
    of [errors] reads [symbol: Yahoo API error: ...]. *)
Theorem prices_yahoo_batch req w symbols :
  query_symbols req = Some symbols → symbols ≠ [] →
  toLowerCase (or_default (query_source req) (lit "yahoo")) = lit "yahoo" →
  ∃ a w',
    prices_handler req w = (Ok {| status := 200; body := BAggregate a |}, w')
    ∧ http_ix w' = (http_ix w + Aggregate.total_requested a)%nat
    ∧ rand_ix w' = rand_ix w
    ∧ Forall (λ v, ∃ q, v = FQuote q ∧ Quote.source q = lit "yahoo")
        (Aggregate.prices a)
    ∧ Forall (λ e, ∃ symbol m',
                 symbol ∈ symbolList symbols
                 ∧ e = symbol ++ lit ": " ++ lit "Yahoo API error: " ++ m')
        (default [] (Aggregate.errors a)).
Proof.
  intros Hq Hne Hsrc. eexists _, _.
  split; [by apply prices_handler_batch|]. simpl.
  set (source := or_default (query_source req) (lit "yahoo")) in *.
  set (syms := symbolList symbols).
  destruct (run_batch_yahoo syms source w Hsrc) as (Hhttp & Hrand & Hall).
  pose proof (run_batch_length syms source w) as Hlen.
  do 2 (split; [done|]).
  rewrite errors_field_cases.
  assert (default [] match failures syms (run_batch syms source w).1 with
                     | [] => None
                     | _ :: _ => Some (failures syms (run_batch syms source w).1)
                     end = failures syms (run_batch syms source w).1) as ->.
  { by destruct (failures syms _). }
  clear Hhttp Hrand.
  destruct (run_batch syms source w) as [outs w']. simpl in *.
  clear -Hall Hlen. revert outs Hall Hlen.
  generalize syms. clear syms. intros syms.
  induction syms as [|symbol rest IH]; intros [|r outs] Hall Hlen;
    try done.
  apply Forall_cons in Hall as [Hr Hall]. injection Hlen as Hlen.
  destruct (IH outs Hall Hlen) as [IH1 IH2].
  rewrite successes_cons, failures_cons. destruct r as [q|m].
  - split; [constructor; eauto|].
    eapply Forall_impl; [exact IH2|].
    intros e (s & m' & Hs & ->). exists s, m'. split; [by right|done].
  - split; [done|]. destruct Hr as [m' ->]. constructor.
    + exists symbol, m'. split; [by left|done].
    + eapply Forall_impl; [exact IH2|].
      intros e (s & m'' & Hs & ->). exists s, m''. split; [by right|done].
Qed.

(** X17. Every promise that the handler passes to [Promise.allSettled] is
    fulfilled, because its [.catch] turns a failure into a value: there is
    one result per symbol, none is [rejected], and so the branch of
    [forEach] for rejected results never runs. *)
Theorem allSettled_fulfilled symbols source w :
  ∃ results w',
    allSettled (promises symbols source) w = (Ok results, w')
    ∧ length results = length symbols
    ∧ Forall (λ r, ∃ v, r = Fulfilled v ∧ fetched_symbol v ∈ symbols) results.
Proof.
  eexists _, _. split; [apply allSettled_promises|].
  pose proof (run_batch_length symbols source w) as Hlen.
  pose proof (run_batch_symbols symbols source w) as Hsym.
  destruct (run_batch symbols source w) as [outs w']. simpl in *.
  split; [by rewrite length_fmap, length_zip, Hlen, Nat.min_id|].
  clear Hlen. induction Hsym as [|symbol r syms outs Hr H IH];
    [constructor|].
  csimpl. constructor.
  - unfold settle_of. simpl. destruct r as [q|m]; eexists; split; try done.
    + simpl. rewrite Hr. by left.
    + by left.
  - eapply Forall_impl; [exact IH|].
    intros r' (v & -> & Hv). exists v. split; [done | by right].
Qed.

(** Every result is pushed onto one of the two arrays, whatever the
    results are. *)
Lemma classify_fold_any symbolList (irs : list (nat * settled)) P E :
  let kept r := match r with
                | Fulfilled (FQuote q) => Some (FQuote q)
                | Fulfilled (FError s e) =>
                    if nonempty e then None else Some (FError s e)
                | Rejected _ => None
                end in
  let '(P', E') := fold_left (classify symbolList) irs (P, E) in
  P' = P ++ omap kept irs.*2
  ∧ (length P' + length E' = length P + length E + length irs)%nat.
Proof.
  intros kept. revert P E.
  induction irs as [|[i r] irs IH]; intros P E; simpl.
  - rewrite app_nil_r. split; [done | lia].
  - destruct r as [[q|s e]|reason]; simpl; [|destruct (nonempty e)|].
    all: match goal with
         | |- context [fold_left ?f ?l (?P0, ?E0)] =>
             specialize (IH P0 E0);
             destruct (fold_left f l (P0, E0)) as [P' E'];
             destruct IH as [HP IH]
         end.
    all: rewrite ?length_app in IH; simpl in IH.
    all: split; [rewrite HP; by rewrite <- ?app_assoc | lia].
Qed.

(** X19. The loop that sorts the settled results puts each of them into
    exactly one of [prices] and [errors], for any list of results: the two
    lengths add up to the number of results, and [prices] holds, in order,
    the fulfilled values whose [error] is falsy, which are the quotes and
    also an object [{symbol, error}] whose message is the empty string. *)
Theorem forEach_classify_partition symbolList results :
  let kept r := match r with
                | Fulfilled (FQuote q) => Some (FQuote q)
                | Fulfilled (FError s e) =>
                    if nonempty e then None else Some (FError s e)
                | Rejected _ => None
                end in
  (forEach_classify symbolList results).1 = omap kept results
  ∧ (length (forEach_classify symbolList results).1
     + length (forEach_classify symbolList results).2
     = length results)%nat.
Proof.
  intros kept. unfold forEach_classify.
  pose proof (classify_fold_any symbolList
                (zip (seq 0 (length results)) results) [] []) as H.
  destruct (fold_left _ _ _) as [P' E']. simpl in *.
  destruct H as [-> H].
  rewrite snd_zip in * by (rewrite length_seq; lia).
  split; [done|].
  rewrite length_zip, length_seq, Nat.min_id in H. done.
Qed.

(** ** More about the single price route *)


End Server.

(** ** The server on concrete requests

    The runtime is the ASCII one and the environment is [sample_env]. *)

Lemma asciiToUpperCase_ascii (s : jsstring) :
  forallb isAscii s = true → asciiToUpperCase s = asciiUpper <$> s.
Proof. reflexivity. Qed.

Lemma asciiToUpperCase_nonempty (s : jsstring) :
  s ≠ [] → asciiToUpperCase s ≠ [].
Proof. by destruct s. Qed.

(** [GET /prices?symbols=AAPL,TSLA,MSFT&source=mock] *)
Lemma prices_totals_witness :
  let req := prices_request "AAPL,TSLA,MSFT" (Some (lit "mock")) in
  query_symbols req = Some (lit "AAPL,TSLA,MSFT")
  ∧ lit "AAPL,TSLA,MSFT" ≠ []
  ∧ ∃ a w',
      prices_handler asciiToUpperCase asciiToLowerCase sample_env req world0
      = (Ok (json (BAggregate a)), w')
      ∧ Aggregate.total_requested a = 3%nat
      ∧ Aggregate.total_successful a = 3%nat
      ∧ Aggregate.total_failed a = 0%nat.
Proof.
  intros req. split; [reflexivity|]. split; [discriminate|].
  destruct (prices_totals asciiToUpperCase asciiToLowerCase sample_env req
              world0 (lit "AAPL,TSLA,MSFT") eq_refl ltac:(discriminate))
    as (a & w' & Hrun & Hreq & Hok & Hfail & Hsum).
  exists a, w'. split; [exact Hrun|].
  vm_compute in Hrun. simplify_eq. repeat split; reflexivity.
Defined.

(** [GET /prices?symbols=AAPL, TSLA]: the upstream API answers for [AAPL]
    and times out for [TSLA]. *)
Lemma prices_partition_witness :
  let req := prices_request "AAPL, TSLA" None in
  query_symbols req = Some (lit "AAPL, TSLA")
  ∧ lit "AAPL, TSLA" ≠ []
  ∧ ∃ a w' q,
      prices_handler asciiToUpperCase asciiToLowerCase sample_env req world0
      = (Ok (json (BAggregate a)), w')
      ∧ Aggregate.prices a = [FQuote q]
      ∧ Quote.symbol q = lit "AAPL"
      ∧ Aggregate.errors a
        = Some [lit "TSLA: Yahoo API error: timeout of 5000ms exceeded"].
Proof.
  intros req. split; [reflexivity|]. split; [discriminate|].
  destruct (prices_partition asciiToUpperCase asciiToLowerCase sample_env req
              world0 (lit "AAPL, TSLA") eq_refl ltac:(discriminate))
    as (a & Hrun & Hlen & Hprices & Herrors & Hquotes & Hok & Hfail & Hmixed).
  destruct Hmixed as [Hp (es & Hes & Hne)].
  { exists 1%nat. eexists. vm_compute. reflexivity. }
  { exists 0%nat. eexists. vm_compute. reflexivity. }
  eexists a, _, _. split; [exact Hrun|].
  vm_compute in Hrun. simplify_eq. repeat split; reflexivity.
Defined.

(** The mock price of [AAPL] when [Math.random()] draws 0: 142.50. *)
Lemma fetchMockPrice_within_witness :
  (0 <= random sample_env (rand_ix world0) < 1)%Q
  ∧ ∃ q w',
      fetchMockPrice sample_env (lit "AAPL") world0 = (Ok q, w')
      ∧ basePrice (lit "AAPL") = 150%Q
      ∧ (150 * (95 # 100) <= Quote.price q <= 150 * (105 # 100))%Q.
Proof.
  assert (0 <= random sample_env (rand_ix world0) < 1)%Q as Hr.
  { split; [discriminate | reflexivity]. }
  split; [exact Hr|].
  destruct (fetchMockPrice_within sample_env (lit "AAPL") world0)
    as (q & w' & Hrun & Hbase & Hin).
  exists q, w'. split; [exact Hrun|]. split; [exact Hbase|].
  change 150%Q with (basePrice (lit "AAPL")). exact (Hin Hr).
Defined.

Lemma symbolList_tokens_witness :
  symbolList asciiToUpperCase (lit "AAPL, , TSLA") = [lit "AAPL"; lit "TSLA"]
  ∧ ∃ ts, Tokens (lit " msft,aapl ") ts
          ∧ symbolList asciiToUpperCase (lit " msft,aapl ")
            = asciiToUpperCase <$> ts.
Proof.
  destruct (symbolList_tokens asciiToUpperCase asciiToUpperCase_ascii
              asciiToUpperCase_nonempty) as [Hall Hex].
  split; [exact Hex|].
  destruct (Hall (lit " msft,aapl ")) as (ts & Hts & Heq & _).
  exists ts. split; [exact Hts | exact Heq].
Defined.

(** [GET /prices?symbols=aapl,,msft&source=mock] *)
Lemma prices_dispatch_witness :
  let req := prices_request "aapl,,msft" (Some (lit "mock")) in
  query_symbols req = Some (lit "aapl,,msft")
  ∧ lit "aapl,,msft" ≠ []
  ∧ ∃ r w',
      prices_handler asciiToUpperCase asciiToLowerCase sample_env req world0
      = (Ok r, w')
      ∧ dispatched w' = [(lit "AAPL", lit "mock"); (lit "MSFT", lit "mock")].
Proof.
  intros req. split; [reflexivity|]. split; [discriminate|].
  destruct (prices_dispatch asciiToUpperCase asciiToLowerCase sample_env
              asciiToUpperCase_ascii asciiToUpperCase_nonempty req world0
              (lit "aapl,,msft") eq_refl ltac:(discriminate))
    as (r & w' & ts & Hrun & Hts & Hlog & Hne).
  exists r, w'. split; [exact Hrun|].
  vm_compute in Hrun. simplify_eq. reflexivity.
Defined.

(** [GET /prices?symbols=TSLA]: the one fetch times out. *)
Lemma prices_errors_field_witness :
  let req := prices_request "TSLA" None in
  query_symbols req = Some (lit "TSLA")
  ∧ lit "TSLA" ≠ []
  ∧ ∃ a w',
      prices_handler asciiToUpperCase asciiToLowerCase sample_env req world0
      = (Ok (json (BAggregate a)), w')
      ∧ Aggregate.errors a
        = Some [lit "TSLA: Yahoo API error: timeout of 5000ms exceeded"].
Proof.
  intros req. split; [reflexivity|]. split; [discriminate|].
  destruct (prices_errors_field asciiToUpperCase asciiToLowerCase sample_env
              req world0 (lit "TSLA") eq_refl ltac:(discriminate))
    as (a & w' & Hrun & Hnone & Hall & Hsome).
  exists a, w'. split; [exact Hrun|].
  vm_compute in Hrun. simplify_eq. reflexivity.
Defined.


(** [split] keeps the empty fragments at both ends; [symbolList] drops
    them. *)
Example split_edges :
  split (lit " a,,b ") = [[]; lit "a"; lit "b"; []]
  ∧ symbolList asciiToUpperCase (lit " a,,b ") = [lit "A"; lit "B"].
Proof. split; reflexivity. Qed.

(** [GET /price/aapl?source=mock] *)
Example price_mock :
  ∃ q w',
    price_handler asciiToUpperCase asciiToLowerCase sample_env
      (price_request "aapl" (Some (lit "mock"))) world0
    = (Ok {| status := 200; body := BQuote q |}, w')
    ∧ Quote.symbol q = lit "AAPL" ∧ Quote.source q = lit "mock"
    ∧ Quote.timestamp q = 1703123456.
Proof. eexists _, _. split; [vm_compute; reflexivity|]. done. Qed.

(** [GET /price/tsla]: the upstream request times out. *)
Example price_timeout :
  (price_handler asciiToUpperCase asciiToLowerCase sample_env
     (price_request "tsla" None) world0).1
  = Ok {| status := 400;
          body := BError (lit "PRICE_FETCH_FAILED")
                    (lit "Failed to fetch price for TSLA: Yahoo API error: timeout of 5000ms exceeded") |}.
Proof. reflexivity. Qed.

(** A body that is not the expected JSON makes the Yahoo client fail. *)
Example yahoo_malformed :
  let upstream data :=
    {| random := random sample_env; now := now sample_env;
       axios_get := λ _ _, AxiosResponse 200 data |} in
  (fetchYahooPrice (upstream VNull) (lit "AAPL") world0).1
  = Throw (lit "Yahoo API error: Cannot read properties of null (reading 'chart')")
  ∧ (fetchYahooPrice (upstream (VStr (lit "<html>"))) (lit "AAPL") world0).1
    = Throw (lit "Yahoo API error: Invalid response format")
  ∧ (fetchYahooPrice
       (upstream (VObj [(lit "chart", VObj [(lit "result",
          VArr [VObj [(lit "meta",
            VObj [(lit "regularMarketPrice", VStr (lit "150"))])]])])]))
       (lit "AAPL") world0).1
    = Throw (lit "Yahoo API error: price.toFixed is not a function").
Proof. repeat split; reflexivity. Qed.

(** *** Where the code departs from the specification *)

(** [GET /prices?symbols=AAPL,AAPL&source=mock]: the repeated symbol is
    fetched twice. *)
Lemma prices_dispatch_duplicates :
  let w' := (prices_handler asciiToUpperCase asciiToLowerCase sample_env
               (prices_request "AAPL,AAPL" (Some (lit "mock"))) world0).2 in
  dispatched w' = [(lit "AAPL", lit "mock"); (lit "AAPL", lit "mock")]
  ∧ ¬ NoDup (dispatched w').*1.
Proof.
  split; [reflexivity|].
  intros H. vm_compute in H. apply NoDup_cons in H as [H _].
  apply H. by left.
Qed.

(** [GET /prices?symbols=AAPL&source=mock]: every symbol succeeds and the
    body has no [errors] field, rather than an empty list. *)
Lemma prices_errors_absent :
  ∃ a w',
    prices_handler asciiToUpperCase asciiToLowerCase sample_env
      (prices_request "AAPL" (Some (lit "mock"))) world0
    = (Ok (json (BAggregate a)), w')
    ∧ Aggregate.total_failed a = 0%nat
    ∧ Aggregate.errors a = None
    ∧ Aggregate.errors a ≠ Some [].
Proof. eexists _, _. split; [vm_compute; reflexivity|]. done. Qed.

(** ** Independence of the fetches of a batch *)

Section Independence.
Context (env1 env2 : Env).

Lemma sim_ret {A} W (R : A → A → Prop) a b :
  R a b → sim W R (mret a) (mret b).
Proof. by intros H w1 w2 _. Qed.
Lemma sim_throw {A} W (R : A → A → Prop) m : sim W R (throw m) (throw m).
Proof. by intros w1 w2 _. Qed.
Lemma sim_lift {A} W (r : Result A) : sim W eq (lift r) (lift r).
Proof. intros w1 w2 _. by destruct r. Qed.
Lemma sim_bind {A B} W (R1 : A → A → Prop) (R : B → B → Prop)
    (c1 c2 : M A) (k1 k2 : A → M B) :
  sim W R1 c1 c2 → (∀ a b, R1 a b → sim anyW R (k1 a) (k2 b)) →
  sim W R (c1 ≫= k1) (c2 ≫= k2).
Proof.
  intros Hc Hk w1 w2 HW. rewrite !bind_run. specialize (Hc w1 w2 HW).
  destruct (c1 w1) as [[a|m1] w1'], (c2 w2) as [[b|m2] w2']; simpl in *;
    try done.
  by apply Hk.
Qed.
Lemma sim_bind_eq {A B} W (R : B → B → Prop) (c1 c2 : M A)
    (k1 k2 : A → M B) :
  sim W eq c1 c2 → (∀ a, sim anyW R (k1 a) (k2 a)) →
  sim W R (c1 ≫= k1) (c2 ≫= k2).
Proof. intros Hc Hk. apply (sim_bind W eq); [done|]. by intros a b <-. Qed.
Lemma sim_bind_now {B} W (R : B → B → Prop) (k1 k2 : Z → M B) :
  (∀ t1 t2, sim anyW R (k1 t1) (k2 t2)) →
  sim W R (Date_now env1 ≫= k1) (Date_now env2 ≫= k2).
Proof. intros Hk. apply (sim_bind W (λ _ _, True)); [done|]. auto. Qed.
Lemma sim_try {A} W (R : A → A → Prop) (c1 c2 : M A)
    (h1 h2 : jsstring → M A) :
  sim W R c1 c2 → (∀ m, sim anyW R (h1 m) (h2 m)) →
  sim W R (try_catch c1 h1) (try_catch c2 h2).
Proof.
  intros Hc Hh w1 w2 HW. unfold try_catch. specialize (Hc w1 w2 HW).
  destruct (c1 w1) as [[a|m1] w1'], (c2 w2) as [[b|m2] w2']; simpl in *;
    try done.
  subst. by apply Hh.
Qed.
Lemma sim_axios url :
  sim (λ w1 w2, axios_get env1 (http_ix w1) url
                = axios_get env2 (http_ix w2) url) eq
    (axios_get_await env1 url) (axios_get_await env2 url).
Proof.
  intros w1 w2 HW. unfold axios_get_await. rewrite HW.
  by destruct (axios_get env2 (http_ix w2) url).
Qed.

Ltac sim_step :=
  first
    [ progress intros
    | apply sim_try
    | apply sim_bind_now
    | apply sim_bind_eq
    | apply sim_axios
    | apply sim_lift
    | apply sim_throw
    | apply sim_ret; reflexivity
    | case_match ].

(** What [fetchYahooPrice] returns or throws is a matter of the answer to
    its request; the clock decides the timestamp only. *)
Lemma fetchYahooPrice_sim symbol :
  sim (λ w1 w2, axios_get env1 (http_ix w1) (yahoo_url symbol)
                = axios_get env2 (http_ix w2) (yahoo_url symbol))
    sameButTime (fetchYahooPrice env1 symbol) (fetchYahooPrice env2 symbol).
Proof. unfold fetchYahooPrice. fold (yahoo_url symbol). repeat sim_step. Qed.

Lemma fetchYahooPrice_untimed symbol w1 w2 :
  axios_get env1 (http_ix w1) (yahoo_url symbol)
  = axios_get env2 (http_ix w2) (yahoo_url symbol) →
  untimed (fetchYahooPrice env1 symbol w1).1
  = untimed (fetchYahooPrice env2 symbol w2).1.
Proof.
  intros H. pose proof (fetchYahooPrice_sim symbol w1 w2 H) as Hs.
  destruct (fetchYahooPrice env1 symbol w1) as [[q1|m1] w1'],
           (fetchYahooPrice env2 symbol w2) as [[q2|m2] w2'];
    simpl in *; try done.
  by subst.
Qed.

Lemma run_batch_untimed toLowerCase symbols source i symbol w1 w2 :
  toLowerCase source = lit "yahoo" →
  http_ix w1 = http_ix w2 →
  symbols !! i = Some symbol →
  axios_get env1 (http_ix w1 + i) (yahoo_url symbol)
  = axios_get env2 (http_ix w1 + i) (yahoo_url symbol) →
  untimed <$> (run_batch toLowerCase env1 symbols source w1).1 !! i
  = untimed <$> (run_batch toLowerCase env2 symbols source w2).1 !! i.
Proof.
  intros Hsrc. revert i w1 w2.
  induction symbols as [|s rest IH]; intros i w1 w2 Hw Hi Hax; [done|].
  simpl. rewrite !fetchPrice_unfold, !bool_decide_true by done.
  set (w1' := {| rand_ix := rand_ix w1; clock_ix := _; http_ix := _;
                 dispatched := dispatched w1 ++ _ |}).
  set (w2' := {| rand_ix := rand_ix w2; clock_ix := _; http_ix := _;
                 dispatched := dispatched w2 ++ _ |}).
  pose proof (fetchYahooPrice_usage env1 s w1') as (Hh1 & _).
  pose proof (fetchYahooPrice_usage env2 s w2') as (Hh2 & _).
  destruct i as [|i].
  - injection Hi as ->. rewrite Nat.add_0_r in Hax.
    pose proof (fetchYahooPrice_untimed symbol w1' w2') as Hu.
    destruct (fetchYahooPrice env1 symbol w1') as [r1 v1],
             (fetchYahooPrice env2 symbol w2') as [r2 v2].
    destruct (run_batch toLowerCase env1 rest source v1),
             (run_batch toLowerCase env2 rest source v2).
    simpl in *. f_equal. apply Hu. by rewrite <- Hw.
  - destruct (fetchYahooPrice env1 s w1') as [r1 v1],
             (fetchYahooPrice env2 s w2') as [r2 v2].
    simpl in Hh1, Hh2.
    specialize (IH i v1 v2).
    destruct (run_batch toLowerCase env1 rest source v1),
             (run_batch toLowerCase env2 rest source v2).
    simpl in *. apply IH; [congruence | done |].
    rewrite Hh1. by rewrite <- Nat.add_succ_comm in Hax.
Qed.

(** X18. In a batch fetched from Yahoo, what a symbol gets depends on the
    answer to its own request only.  Take two environments that answer
    the request of the [i]-th symbol alike and the other requests of the
    batch in any way, failing or not: the [i]-th outcome is the same in
    both, the same error or the same quote up to its timestamp. *)
Theorem yahoo_batch_independent toLowerCase symbols source w i symbol :
  toLowerCase source = lit "yahoo" →
  symbols !! i = Some symbol →
  axios_get env1 (http_ix w + i) (yahoo_url symbol)
  = axios_get env2 (http_ix w + i) (yahoo_url symbol) →
  untimed <$> (run_batch toLowerCase env1 symbols source w).1 !! i
  = untimed <$> (run_batch toLowerCase env2 symbols source w).1 !! i.
Proof.
  intros Hsrc Hi Hax.
  by apply (run_batch_untimed toLowerCase symbols source i symbol w w).
Qed.

End Independence.

(** ** The added statements on concrete requests *)

Lemma fetchYahooPrice_error_kinds_witness :
  fetchYahooPrice sample_env (lit "TSLA") world0
  = (Throw (lit "Yahoo API error: timeout of 5000ms exceeded"),
     {| rand_ix := 0; clock_ix := 0; http_ix := 1; dispatched := [] |})
  ∧ ∃ m', lit "Yahoo API error: timeout of 5000ms exceeded"
          = lit "Yahoo API error: " ++ m'.
Proof.
  assert (fetchYahooPrice sample_env (lit "TSLA") world0
          = (Throw (lit "Yahoo API error: timeout of 5000ms exceeded"),
             {| rand_ix := 0; clock_ix := 0; http_ix := 1;
                dispatched := [] |})) as Hrun by (vm_compute; reflexivity).
  split; [exact Hrun|].
  destruct (fetchYahooPrice_error_kinds sample_env _ _ _ _ Hrun)
    as (m' & Hm & _).
  exists m'. exact Hm.
Defined.

Lemma fetchYahooPrice_quote_witness :
  ∃ q w',
    fetchYahooPrice sample_env (lit "AAPL") world0 = (Ok q, w')
    ∧ Quote.price q = toFixed2 (15025 # 100)
    ∧ Quote.change_24h q = Some (toFixed2 (215 # 100))
    ∧ Quote.timestamp q = 1703123456.
Proof.
  eexists _, _. split.
  - eapply (fetchYahooPrice_quote sample_env (lit "AAPL") world0);
      try (vm_compute; reflexivity).
    + right. eexists. vm_compute. reflexivity.
    + right. eexists. vm_compute. reflexivity.
  - repeat split; vm_compute; reflexivity.
Defined.

Lemma fetchYahooPrice_transport_witness :
  fetchYahooPrice sample_env (lit "TSLA") world0
  = (Throw (lit "Yahoo API error: " ++ lit "timeout of 5000ms exceeded"),
     {| rand_ix := 0; clock_ix := 0; http_ix := 1; dispatched := [] |})
  ∧ fetchYahooPrice (const_env (AxiosResponse 204 VNull)) (lit "TSLA") world0
    = (Throw (lit "Yahoo API error: " ++ lit "HTTP error: " ++ lit "204"),
       {| rand_ix := 0; clock_ix := 0; http_ix := 1; dispatched := [] |}).
Proof.
  split.
  - destruct (fetchYahooPrice_transport sample_env (lit "TSLA") world0)
      as [Hrej _].
    apply Hrej. vm_compute. reflexivity.
  - destruct (fetchYahooPrice_transport (const_env (AxiosResponse 204 VNull))
                (lit "TSLA") world0) as [_ Hst].
    apply (Hst 204 VNull); [reflexivity | discriminate].
Defined.

Lemma fetchYahooPrice_incomplete_witness :
  fetchYahooPrice (const_env (AxiosResponse 200 (VObj no_result)))
    (lit "NOPE") world0
  = (Throw (lit "Yahoo API error: " ++ lit "Invalid response format"),
     {| rand_ix := 0; clock_ix := 0; http_ix := 1; dispatched := [] |}).
Proof.
  destruct (fetchYahooPrice_incomplete
              (const_env (AxiosResponse 200 (VObj no_result)))
              (lit "NOPE") world0 no_result [(lit "result", VNull)]
              eq_refl eq_refl) as [Hnone _].
  apply Hnone. left. reflexivity.
Defined.


Lemma fetchMockPrice_ranges_witness :
  (0 <= random sample_env (rand_ix world0) < 1)%Q
  ∧ (0 <= random sample_env (S (rand_ix world0)) < 1)%Q
  ∧ ∃ q w' c,
      fetchMockPrice sample_env (lit "BAC") world0 = (Ok q, w')
      ∧ (57 # 2 <= Quote.price q)%Q
      ∧ Quote.change_24h q = Some c ∧ (- (5) <= c <= 5)%Q.
Proof.
  assert (0 <= random sample_env (rand_ix world0) < 1)%Q as H0
    by (split; [discriminate | reflexivity]).
  assert (0 <= random sample_env (S (rand_ix world0)) < 1)%Q as H1
    by (split; [discriminate | reflexivity]).
  split; [exact H0|]. split; [exact H1|].
  destruct (fetchMockPrice_ranges sample_env (lit "BAC") world0 H0 H1)
    as (q & w' & c & Hrun & _ & Hp & Hc & Hr).
  exists q, w', c. split; [exact Hrun|]. split; [exact Hp|].
  split; [exact Hc | exact Hr].
Defined.

Lemma symbolList_app_sep_witness :
  isSep 32 = true
  ∧ symbolList asciiToUpperCase (lit "aapl,msft" ++ 32%N :: lit "tsla")
    = symbolList asciiToUpperCase (lit "aapl,msft")
      ++ symbolList asciiToUpperCase (lit "tsla").
Proof.
  split; [reflexivity|].
  apply (symbolList_app_sep asciiToUpperCase asciiToUpperCase_ascii
           asciiToUpperCase_nonempty).
  reflexivity.
Defined.

(** The symbols of every group of [GET /groups], joined with commas, are
    parsed back into the group. *)
Lemma symbolList_join_comma_witness :
  Forall (λ kg : jsstring * StockGroup.t,
            Forall (λ t, t ≠ [] ∧ sepFree t) (StockGroup.symbols kg.2)
            ∧ symbolList asciiToUpperCase
                (join_comma (StockGroup.symbols kg.2))
              = StockGroup.symbols kg.2) groups.
Proof.
  assert (∀ ts, Forall (λ t, t ≠ [] ∧ sepFree t) ts →
                asciiToUpperCase <$> ts = ts →
                Forall (λ t, t ≠ [] ∧ sepFree t) ts
                ∧ symbolList asciiToUpperCase (join_comma ts) = ts) as Hgroup.
  { intros ts Hts Hup. split; [exact Hts|].
    rewrite (symbolList_join_comma asciiToUpperCase asciiToUpperCase_ascii
               asciiToUpperCase_nonempty ts Hts).
    exact Hup. }
  unfold groups, group.
  repeat (apply Forall_cons_2;
          [apply Hgroup; [repeat constructor; discriminate | reflexivity]|]).
  apply Forall_nil_2.
Defined.


(** [GET /prices?symbols=, ,] *)
Lemma prices_only_separators_witness :
  let req := prices_request ", ," (Some (lit "mock")) in
  query_symbols req = Some (lit ", ,")
  ∧ lit ", ," ≠ []
  ∧ Forall (λ c, isSep c = true) (lit ", ,")
  ∧ ∃ a,
      prices_handler asciiToUpperCase asciiToLowerCase sample_env req world0
      = (Ok {| status := 200; body := BAggregate a |}, world0)
      ∧ Aggregate.success a = false
      ∧ Aggregate.total_requested a = 0%nat.
Proof.
  intros req.
  assert (Forall (λ c, isSep c = true) (lit ", ,")) as Hsep
    by (repeat constructor).
  split; [reflexivity|]. split; [discriminate|]. split; [exact Hsep|].
  eexists. split.
  - apply (prices_only_separators asciiToUpperCase asciiToLowerCase
             sample_env asciiToUpperCase_ascii asciiToUpperCase_nonempty
             req world0 (lit ", ,") eq_refl ltac:(discriminate) Hsep).
  - split; reflexivity.
Defined.

(** [GET /prices?symbols=TSLA,MSFT]: both requests time out. *)
Lemma prices_success_flag_witness :
  let req := prices_request "TSLA,MSFT" None in
  query_symbols req = Some (lit "TSLA,MSFT")
  ∧ lit "TSLA,MSFT" ≠ []
  ∧ ∃ a w',
      prices_handler asciiToUpperCase asciiToLowerCase sample_env req world0
      = (Ok {| status := 200; body := BAggregate a |}, w')
      ∧ Aggregate.success a = false
      ∧ Aggregate.prices a = [].
Proof.
  intros req. split; [reflexivity|]. split; [discriminate|].
  destruct (prices_success_flag asciiToUpperCase asciiToLowerCase sample_env
              req world0 (lit "TSLA,MSFT") eq_refl ltac:(discriminate))
    as (a & w' & Hrun & Htrue & Hfalse).
  exists a, w'. split; [exact Hrun|].
  assert (Aggregate.prices a = []) as Hnil.
  { vm_compute in Hrun. by simplify_eq. }
  split; [by apply Hfalse | exact Hnil].
Defined.

(** [GET /prices?symbols=AAPL,XYZ&source=MOCK] *)
Lemma prices_mock_batch_witness :
  let req := prices_request "AAPL,XYZ" (Some (lit "MOCK")) in
  query_symbols req = Some (lit "AAPL,XYZ")
  ∧ lit "AAPL,XYZ" ≠ []
  ∧ asciiToLowerCase (or_default (query_source req) (lit "yahoo"))
    ≠ lit "yahoo"
  ∧ ∃ a w',
      prices_handler asciiToUpperCase asciiToLowerCase sample_env req world0
      = (Ok {| status := 200; body := BAggregate a |}, w')
      ∧ Aggregate.total_failed a = 0%nat
      ∧ Aggregate.errors a = None
      ∧ http_ix w' = 0%nat.
Proof.
  intros req. split; [reflexivity|]. split; [discriminate|].
  split; [discriminate|].
  destruct (prices_mock_batch asciiToUpperCase asciiToLowerCase sample_env
              req world0 (lit "AAPL,XYZ") eq_refl ltac:(discriminate)
              ltac:(discriminate))
    as (a & w' & Hrun & _ & Hfail & Herr & _ & Hhttp & _).
  exists a, w'. split; [exact Hrun|]. split; [exact Hfail|].
  split; [exact Herr | exact Hhttp].
Defined.

(** [GET /prices?symbols=AAPL,AAPL,TSLA&source=Yahoo] *)
Lemma prices_yahoo_batch_witness :
  let req := prices_request "AAPL,AAPL,TSLA" (Some (lit "Yahoo")) in
  query_symbols req = Some (lit "AAPL,AAPL,TSLA")
  ∧ lit "AAPL,AAPL,TSLA" ≠ []
  ∧ asciiToLowerCase (or_default (query_source req) (lit "yahoo"))
    = lit "yahoo"
  ∧ ∃ a w',
      prices_handler asciiToUpperCase asciiToLowerCase sample_env req world0
      = (Ok {| status := 200; body := BAggregate a |}, w')
      ∧ Aggregate.total_requested a = 3%nat
      ∧ http_ix w' = 3%nat
      ∧ rand_ix w' = 0%nat.
Proof.
  intros req. split; [reflexivity|]. split; [discriminate|].
  split; [reflexivity|].
  destruct (prices_yahoo_batch asciiToUpperCase asciiToLowerCase sample_env
              req world0 (lit "AAPL,AAPL,TSLA") eq_refl ltac:(discriminate)
              eq_refl)
    as (a & w' & Hrun & Hhttp & Hrand & _).
  assert (Aggregate.total_requested a = 3%nat) as Hreq.
  { vm_compute in Hrun. by simplify_eq. }
  exists a, w'. split; [exact Hrun|]. split; [exact Hreq|].
  split; [|exact Hrand]. rewrite Hhttp, Hreq. reflexivity.
Defined.

(** [symbols=MSFT,AAPL] from Yahoo: whether the request for [MSFT] times
    out or is answered, [AAPL] gets the same quote. *)
Lemma yahoo_batch_independent_witness :
  let symbols := [lit "MSFT"; lit "AAPL"] in
  asciiToLowerCase (lit "yahoo") = lit "yahoo"
  ∧ symbols !! 1%nat = Some (lit "AAPL")
  ∧ axios_get sample_env 1 (yahoo_url (lit "AAPL"))
    = axios_get other_env 1 (yahoo_url (lit "AAPL"))
  ∧ axios_get sample_env 0 (yahoo_url (lit "MSFT"))
    ≠ axios_get other_env 0 (yahoo_url (lit "MSFT"))
  ∧ untimed <$>
      (run_batch asciiToLowerCase sample_env symbols (lit "yahoo") world0).1
        !! 1%nat
    = untimed <$>
        (run_batch asciiToLowerCase other_env symbols (lit "yahoo") world0).1
          !! 1%nat.
Proof.
  intros symbols.
  assert (axios_get sample_env 1 (yahoo_url (lit "AAPL"))
          = axios_get other_env 1 (yahoo_url (lit "AAPL"))) as Hax
    by (vm_compute; reflexivity).
  split; [reflexivity|]. split; [reflexivity|]. split; [exact Hax|].
  split; [vm_compute; discriminate|].
  apply (yahoo_batch_independent sample_env other_env asciiToLowerCase
           symbols (lit "yahoo") world0 1 (lit "AAPL") eq_refl eq_refl Hax).
Defined.

Lemma fetchYahooPrice_one_request_witness :
  asciiToLowerCase (lit "YAHOO") = lit "yahoo"
  ∧ http_ix (fetchPrice asciiToLowerCase sample_env (lit "TSLA")
               (lit "YAHOO") world0).2 = 1%nat
  ∧ dispatched (fetchPrice asciiToLowerCase sample_env (lit "TSLA")
                  (lit "YAHOO") world0).2 = [(lit "TSLA", lit "YAHOO")].
Proof.
  split; [reflexivity|].
  destruct (fetchYahooPrice_one_request asciiToLowerCase sample_env
              (lit "TSLA") world0) as [_ Hfetch].
  destruct (Hfetch (lit "YAHOO") eq_refl) as (Hh & _ & Hd & _).
  split; [exact Hh | exact Hd].
Defined.
